(** * iceberg-twist: frame scanning and decoding of the IMU byte stream

    A shallow embedding of [main.py]: the byte-level helpers
    [get_timestamp], [get_timestamp_byte], [get_data_array], [get_data],
    the delimiter split [bytes.split(b'\x3a')] of the entry point and the
    file sink [bytes_to_file], together with the parts of Python's
    [struct] module and of the [bytes] type they call. *)

From Stdlib Require Import ZArith Strings.Byte.
From stdpp Require Import base list strings gmap.

Local Open Scope Z_scope.

(** ** Exceptions and results *)

(** The two ways [struct] rejects a buffer, with the numbers its message
    carries. *)
Inductive struct_error : Type :=
  | BufferTooSmall (required actual : Z)
      (* "unpack_from requires a buffer of at least <required> bytes ...
         (actual buffer size is <actual>)" *)
  | NotAMultiple (size : Z).
      (* "iterative unpacking requires a buffer of a multiple of <size> bytes" *)

(** The [OSError] subclasses the file sink can meet. *)
Inductive os_error : Type :=
  | FileNotFoundError
  | PermissionError
  | IsADirectoryError.

Inductive exn : Type :=
  | StructError (e : struct_error)
  | OSError (e : os_error).

Inductive result (A : Type) : Type :=
  | Ok (a : A)
  | Raise (e : exn).
Arguments Ok {A} a.
Arguments Raise {A} e.

#[global] Instance result_bind : MBind result := fun A B k r =>
  match r with
  | Ok a => k a
  | Raise e => Raise e
  end.

Definition is_ok {A} (r : result A) : bool :=
  match r with Ok _ => true | Raise _ => false end.

(** ** Bytes *)

Abbreviation bytes := (list byte).

#[global] Instance byte_eq_decision : EqDecision byte := Byte.byte_eq_dec.

Definition byte_val (b : byte) : Z := Z.of_N (Byte.to_N b).

(** ** The [struct] module, native mode *)

(** Native byte order is the host's; both are carried as a parameter. *)
Inductive byte_order : Type := LittleEndian | BigEndian.

(** The two format characters [main.py] uses. *)
Inductive format : Type :=
  | fmt_h   (* 'h': short, 2 bytes *)
  | fmt_i.  (* 'i': int, 4 bytes *)

Definition calcsize (f : format) : nat :=
  match f with fmt_h => 2%nat | fmt_i => 4%nat end.

(** Unsigned value of a byte string, least significant byte first. *)
Fixpoint le_unsigned (bs : bytes) : Z :=
  match bs with
  | [] => 0
  | b :: rest => byte_val b + 256 * le_unsigned rest
  end.

Definition unsigned (o : byte_order) (bs : bytes) : Z :=
  match o with
  | LittleEndian => le_unsigned bs
  | BigEndian => le_unsigned (rev bs)
  end.

(** Two's complement reading of an unsigned value of [8 * n] bits. *)
Definition to_signed (n : nat) (u : Z) : Z :=
  if u <? 2 ^ (8 * Z.of_nat n - 1) then u else u - 2 ^ (8 * Z.of_nat n).

(** One value of format [f] from exactly [calcsize f] bytes. *)
Definition unpack_value (o : byte_order) (f : format) (bs : bytes) : Z :=
  to_signed (calcsize f) (unsigned o bs).

(** [struct.unpack_from(f, buffer, offset)] for a non-negative offset:
    the buffer must hold [calcsize f] bytes from [offset] on. *)
Definition unpack_from (o : byte_order) (f : format) (buffer : bytes)
    (offset : nat) : result Z :=
  if Z.of_nat (length buffer) - Z.of_nat offset <? Z.of_nat (calcsize f)
  then Raise (StructError (BufferTooSmall (Z.of_nat offset + Z.of_nat (calcsize f))
                                          (Z.of_nat (length buffer))))
  else Ok (unpack_value o f (take (calcsize f) (drop offset buffer))).

(** The iterator object [struct.iter_unpack] returns: the buffer and the
    index of the next item. *)
Record unpack_iterator : Type := {
  it_format : format;
  it_buffer : bytes;
  it_index : nat
}.

(** [struct.iter_unpack(f, buffer)]: refused at the call when the length
    is not a multiple of the item size. *)
Definition iter_unpack (f : format) (buffer : bytes) : result unpack_iterator :=
  if Z.of_nat (length buffer) mod Z.of_nat (calcsize f) =? 0
  then Ok {| it_format := f; it_buffer := buffer; it_index := 0 |}
  else Raise (StructError (NotAMultiple (Z.of_nat (calcsize f)))).

(** [next(it)]: [None] is StopIteration. *)
Definition iter_next (o : byte_order) (it : unpack_iterator)
    : option (Z * unpack_iterator) :=
  if (length (it_buffer it) <=? it_index it)%nat then None
  else
    let size := calcsize (it_format it) in
    Some (unpack_value o (it_format it) (take size (drop (it_index it) (it_buffer it))),
          {| it_format := it_format it;
             it_buffer := it_buffer it;
             it_index := (it_index it + size)%nat |}).

(** The comprehension [[datum[0] for datum in data_iter]]: items are taken
    until StopIteration; [fuel] bounds the number of items. *)
Fixpoint drain (o : byte_order) (fuel : nat) (it : unpack_iterator) : list Z :=
  match fuel with
  | O => []
  | S fuel' =>
      match iter_next o it with
      | None => []
      | Some (datum, it') => datum :: drain o fuel' it'
      end
  end.

(** [struct.pack(f, v)] for a value in range, used to build test frames. *)
Definition byte_of_Z (z : Z) : byte :=
  default Byte.x00 (Byte.of_N (Z.to_N (z mod 256))).

Fixpoint le_bytes (n : nat) (u : Z) : bytes :=
  match n with
  | O => []
  | S n' => byte_of_Z u :: le_bytes n' (u / 256)
  end.

Definition pack (o : byte_order) (f : format) (v : Z) : bytes :=
  let raw := le_bytes (calcsize f) (v mod 2 ^ (8 * Z.of_nat (calcsize f))) in
  match o with
  | LittleEndian => raw
  | BigEndian => rev raw
  end.

(** ** [main.py] *)

(** Python's [b[lo:hi]] for non-negative bounds: both are clamped to the
    length. *)
Definition slice (lo hi : nat) (b : bytes) : bytes :=
  take (hi - lo) (drop lo b).

(** [(timestamp, ) = struct.unpack_from('i', byte_array, 6)] *)
Definition get_timestamp (o : byte_order) (byte_array : bytes) : result Z :=
  unpack_from o fmt_i byte_array 6.

(** [byte_array[6:7]] *)
Definition get_timestamp_byte (byte_array : bytes) : bytes :=
  slice 6 7 byte_array.

(** [byte_array[10:24]] *)
Definition get_data_array (byte_array : bytes) : bytes :=
  slice 10 24 byte_array.

(** [data_iter = struct.iter_unpack('h', byte_array)] and the comprehension
    over it.  An iterator over [n] bytes yields at most [n] items. *)
Definition get_data (o : byte_order) (byte_array : bytes) : result (list Z) :=
  data_iter ← iter_unpack fmt_h byte_array;
  Ok (drain o (length byte_array) data_iter).

(** [bytes.split(sep)] for a one-byte separator, as a left-to-right scan:
    [cur] holds the bytes since the last separator. *)
Fixpoint split_scan (d : byte) (cur : bytes) (b : bytes) : list bytes :=
  match b with
  | [] => [cur]
  | x :: rest =>
      if decide (x = d) then cur :: split_scan d [] rest
      else split_scan d (cur ++ [x]) rest
  end.

Definition split (d : byte) (b : bytes) : list bytes := split_scan d [] b.

(** [sep.join(parts)] for a one-byte separator. *)
Fixpoint join (d : byte) (parts : list bytes) : bytes :=
  match parts with
  | [] => []
  | [p] => p
  | p :: ps => p ++ d :: join d ps
  end.

(** The delimiter of the entry point, [b'\x3a']. *)
Definition DELIMITER : byte := Byte.x3a.

(** ** The decoding steps put together *)

(** What one candidate decodes to. *)
Record Frame : Type := {
  timestamp : Z;
  samples : list Z
}.

(** Sample extraction: [get_data(get_data_array(frame))]. *)
Definition get_samples (o : byte_order) (frame : bytes) : result (list Z) :=
  get_data o (get_data_array frame).

(** Full decoding: [get_timestamp(frame)], then sample extraction. *)
Definition decode (o : byte_order) (frame : bytes) : result Frame :=
  ts ← get_timestamp o frame;
  data ← get_samples o frame;
  Ok {| timestamp := ts; samples := data |}.

(** The 20-byte frame of the scenario: 6 zero bytes, [pack('i', 1234)],
    4 zero bytes, [pack('h', 1)], [pack('h', -1)], [pack('h', 7)]. *)
Definition scenario_frame (o : byte_order) : bytes :=
  replicate 6 Byte.x00 ++ pack o fmt_i 1234 ++ replicate 4 Byte.x00
    ++ pack o fmt_h 1 ++ pack o fmt_h (-1) ++ pack o fmt_h 7.

(** The samples as the specification words them: every consecutive 2-byte
    group of the payload read as a signed 16-bit integer, in stream order,
    an odd trailing byte dropped. *)
Fixpoint int16_groups (o : byte_order) (payload : bytes) : list Z :=
  match payload with
  | b0 :: b1 :: rest => unpack_value o fmt_h [b0; b1] :: int16_groups o rest
  | _ => []
  end.

(** The payload as the specification words it: the bytes from offset 10 on. *)
Definition payload (frame : bytes) : bytes := drop 10 frame.

(** The values a format holds: [-2^15 .. 2^15 - 1] for 'h',
    [-2^31 .. 2^31 - 1] for 'i'. *)
Definition in_range (f : format) (v : Z) : Prop :=
  - 2 ^ (8 * Z.of_nat (calcsize f) - 1) <= v < 2 ^ (8 * Z.of_nat (calcsize f) - 1).

(** ** Evaluation as a relation *)

(** The comprehension, one [next] at a time: StopIteration ends the loop,
    an item is appended and the loop goes on with the advanced iterator. *)
Inductive drains (o : byte_order) : unpack_iterator -> list Z -> Prop :=
  | drains_stop it :
      iter_next o it = None -> drains o it []
  | drains_item it datum it' data :
      iter_next o it = Some (datum, it') -> drains o it' data ->
      drains o it (datum :: data).

(** What a call of [get_data] ends in. *)
Inductive get_data_returns (o : byte_order) (byte_array : bytes)
    : result (list Z) -> Prop :=
  | get_data_refused e :
      iter_unpack fmt_h byte_array = Raise e ->
      get_data_returns o byte_array (Raise e)
  | get_data_drained data_iter data :
      iter_unpack fmt_h byte_array = Ok data_iter ->
      drains o data_iter data ->
      get_data_returns o byte_array (Ok data).

(** What decoding a candidate ends in. *)
Inductive decodes (o : byte_order) (frame : bytes) : result Frame -> Prop :=
  | decodes_no_timestamp e :
      get_timestamp o frame = Raise e ->
      decodes o frame (Raise e)
  | decodes_no_samples ts e :
      get_timestamp o frame = Ok ts ->
      get_data_returns o (get_data_array frame) (Raise e) ->
      decodes o frame (Raise e)
  | decodes_frame ts data :
      get_timestamp o frame = Ok ts ->
      get_data_returns o (get_data_array frame) (Ok data) ->
      decodes o frame (Ok {| timestamp := ts; samples := data |}).

(** ** Reads, checked and recorded *)

(** The same steps with every byte taken from a buffer through [peek],
    which records the buffer and the index and faults outside the buffer. *)
Module Checked.

(** Byte [i] of buffer [b]. *)
Definition access : Type := (bytes * nat)%type.

Definition in_bounds (a : access) : Prop := (a.2 < length a.1)%nat.

Inductive outcome (A : Type) : Type :=
  | Done (a : A)
  | Raised (e : exn)
  | OutOfBounds (a : access).
Arguments Done {A} a.
Arguments Raised {A} e.
Arguments OutOfBounds {A} a.

Record traced (A : Type) : Type := Traced {
  outcome_of : outcome A;
  reads : list access
}.
Arguments Traced {A} outcome_of reads.
Arguments outcome_of {A} t.
Arguments reads {A} t.

#[global] Instance traced_ret : MRet traced := fun A a => Traced (Done a) [].

#[global] Instance traced_bind : MBind traced := fun A B k m =>
  match outcome_of m with
  | Done a => Traced (outcome_of (k a)) (reads m ++ reads (k a))
  | Raised e => Traced (Raised e) (reads m)
  | OutOfBounds a => Traced (OutOfBounds a) (reads m)
  end.

Definition raise {A} (e : exn) : traced A := Traced (Raised e) [].

Definition lift {A} (r : result A) : outcome A :=
  match r with Ok a => Done a | Raise e => Raised e end.

Definition peek (b : bytes) (i : nat) : traced byte :=
  Traced (match b !! i with Some x => Done x | None => OutOfBounds (b, i) end)
         [(b, i)].

Fixpoint peek_range (b : bytes) (start n : nat) : traced bytes :=
  match n with
  | O => mret []
  | S n' =>
      x ← peek b start;
      xs ← peek_range b (S start) n';
      mret (x :: xs)
  end.

Definition unpack_from (o : byte_order) (f : format) (buffer : bytes)
    (offset : nat) : traced Z :=
  if Z.of_nat (length buffer) - Z.of_nat offset <? Z.of_nat (calcsize f)
  then raise (StructError (BufferTooSmall (Z.of_nat offset + Z.of_nat (calcsize f))
                                          (Z.of_nat (length buffer))))
  else bs ← peek_range buffer offset (calcsize f);
       mret (unpack_value o f bs).

(** [b[lo:hi]]: both bounds are clamped to the length, then the bytes
    between them are copied. *)
Definition slice (lo hi : nat) (b : bytes) : traced bytes :=
  let start := (lo `min` length b)%nat in
  let stop := (hi `min` length b)%nat in
  peek_range b start (stop - start).

Definition iter_unpack (f : format) (buffer : bytes) : traced unpack_iterator :=
  if Z.of_nat (length buffer) mod Z.of_nat (calcsize f) =? 0
  then mret {| it_format := f; it_buffer := buffer; it_index := 0 |}
  else raise (StructError (NotAMultiple (Z.of_nat (calcsize f)))).

Definition iter_next (o : byte_order) (it : unpack_iterator)
    : traced (option (Z * unpack_iterator)) :=
  if (length (it_buffer it) <=? it_index it)%nat then mret None
  else
    let size := calcsize (it_format it) in
    bs ← peek_range (it_buffer it) (it_index it) size;
    mret (Some (unpack_value o (it_format it) bs,
                {| it_format := it_format it;
                   it_buffer := it_buffer it;
                   it_index := (it_index it + size)%nat |})).

Fixpoint drain (o : byte_order) (fuel : nat) (it : unpack_iterator)
    : traced (list Z) :=
  match fuel with
  | O => mret []
  | S fuel' =>
      item ← iter_next o it;
      match item with
      | None => mret []
      | Some (datum, it') => data ← drain o fuel' it'; mret (datum :: data)
      end
  end.

Definition get_timestamp (o : byte_order) (byte_array : bytes) : traced Z :=
  unpack_from o fmt_i byte_array 6.

Definition get_data_array (byte_array : bytes) : traced bytes :=
  slice 10 24 byte_array.

Definition get_data (o : byte_order) (byte_array : bytes) : traced (list Z) :=
  data_iter ← iter_unpack fmt_h byte_array;
  drain o (length byte_array) data_iter.

Definition get_samples (o : byte_order) (frame : bytes) : traced (list Z) :=
  data_array ← get_data_array frame;
  get_data o data_array.

Definition decode (o : byte_order) (frame : bytes) : traced Frame :=
  ts ← get_timestamp o frame;
  data ← get_samples o frame;
  mret {| timestamp := ts; samples := data |}.

End Checked.

(** ** The file sink *)

(** Computations on the file system: an outcome and the state left behind,
    also when an exception is raised. *)
Definition io (fs A : Type) : Type := fs -> result A * fs.

(** What [bytes_to_file] asks of the operating system: [os.remove],
    [open(path, 'wb')], and [write] and [close] of the file object. *)
Class FileOps (fs handle : Type) : Type := {
  os_remove : string -> io fs unit;
  open_wb : string -> io fs handle;
  sink_write : handle -> bytes -> io fs nat;
  sink_close : handle -> io fs unit
}.

Section FileSink.
Context {fs handle : Type} `{!FileOps fs handle}.

Definition pass : io fs unit := fun s => (Ok (), s).

(** Two statements in a row. *)
Definition and_then {A B} (first : io fs A) (second : io fs B) : io fs B :=
  fun s =>
    match first s with
    | (Ok _, s') => second s'
    | (Raise e, s') => (Raise e, s')
    end.

(** [try: body / except: handler]: a bare [except] catches every
    exception. *)
Definition try_except {A} (body : io fs A) (handler : exn -> io fs A) : io fs A :=
  fun s =>
    match body s with
    | (Ok a, s') => (Ok a, s')
    | (Raise e, s') => handler e s'
    end.

(** [with opening as sink: body]: the file is closed on the way out,
    also when the body raises; an exception of [close] takes over. *)
Definition with_open {A} (opening : io fs handle) (body : handle -> io fs A)
    : io fs unit :=
  fun s =>
    match opening s with
    | (Raise e, s1) => (Raise e, s1)
    | (Ok sink, s1) =>
        match body sink s1 with
        | (Ok _, s2) => sink_close sink s2
        | (Raise e, s2) =>
            match sink_close sink s2 with
            | (Ok _, s3) => (Raise e, s3)
            | (Raise e', s3) => (Raise e', s3)
            end
        end
    end.

(** The second statement of [bytes_to_file]. *)
Definition write_to (path : string) (byte_array : bytes) : io fs unit :=
  with_open (open_wb path) (fun sink => sink_write sink byte_array).

Definition bytes_to_file (path : string) (byte_array : bytes) : io fs unit :=
  and_then (try_except (os_remove path) (fun _ => pass))
           (write_to path byte_array).

End FileSink.

(** One situation the sink meets on a POSIX system: the directory holding
    the path refuses changes, so [os.remove] raises PermissionError, while
    the file at the path accepts writes.  The state is the content of that
    file; [open(path, 'wb')] truncates it and [write] appends to it. *)
Definition locked_directory : FileOps bytes unit := {|
  os_remove _ content := (Raise (OSError PermissionError), content);
  open_wb _ _ := (Ok (), []);
  sink_write _ data content := (Ok (length data), content ++ data);
  sink_close _ content := (Ok (), content)
|}.

(** ** Packing sequences, and the delimiter count of the entry point *)

(** [struct.pack] of several values of one format, one after the other
    (as [struct.pack('hhh', 1, -1, 7)]). *)
Fixpoint pack_all (o : byte_order) (f : format) (vs : list Z) : bytes :=
  match vs with
  | [] => []
  | v :: rest => pack o f v ++ pack_all o f rest
  end.

(** [[byte for byte in bytes if byte == 58]]: iterating over [bytes] gives
    the integer values. *)
Definition delimiter_bytes (b : bytes) : list Z :=
  filter (fun v => v = 58) (byte_val <$> b).

(** ** The file source *)

(** What [get_bytes_from_file] asks of the operating system:
    [open(path, 'rb')], and [read] and [close] of the file object. *)
Class FileReadOps (fs handle : Type) : Type := {
  open_rb : string -> io fs handle;
  source_read : handle -> io fs bytes;
  source_close : handle -> io fs unit
}.

Section FileSource.
Context {fs handle : Type} `{!FileReadOps fs handle}.

(** [with open(path, 'rb') as source: bytes = source.read()], then
    [return bytes]: the file is closed on the way out of the [with], also
    when [read] raises; an exception of [close] takes over. *)
Definition get_bytes_from_file (path : string) : io fs bytes :=
  fun s =>
    match open_rb path s with
    | (Raise e, s1) => (Raise e, s1)
    | (Ok source, s1) =>
        match source_read source s1 with
        | (Ok data, s2) =>
            match source_close source s2 with
            | (Ok _, s3) => (Ok data, s3)
            | (Raise e, s3) => (Raise e, s3)
            end
        | (Raise e, s2) =>
            match source_close source s2 with
            | (Ok _, s3) => (Raise e, s3)
            | (Raise e', s3) => (Raise e', s3)
            end
        end
    end.

End FileSource.

(** One situation the source meets: the file at the path exists and can be
    read.  The state is its content, which [read] returns whole. *)
Definition readable_file : FileReadOps bytes unit := {|
  open_rb _ content := (Ok (), content);
  source_read _ content := (Ok content, content);
  source_close _ content := (Ok (), content)
|}.

(** ** The serial transport *)

(** The values of a configuration dictionary. *)
Inductive config_value : Type :=
  | Str (s : string)
  | Int (n : Z).

Definition DEFAULT : gmap string config_value :=
  {[ "path"%string := Str "/dev/ttyUSB1";
     "baud"%string := Int 115200;
     "timeout"%string := Int 1 ]}.

Definition FAST : gmap string config_value :=
  {[ "path"%string := Str "/dev/ttyUSB1";
     "baud"%string := Int 115200;
     "timeout"%string := Int 1 ]}.

(** What [get_bytes] can raise: [KeyError] from the dictionary, or whatever
    the port and [sleep] raise. *)
Inductive transport_error (E : Type) : Type :=
  | KeyError (key : string)
  | DeviceError (e : E).
Arguments KeyError {E} key.
Arguments DeviceError {E} e.

(** What [get_bytes] asks of [serial] and [time]: the [Serial] constructor
    (which opens the port), [sleep], and [in_waiting], [read] and [close] of
    the port. *)
Class SerialOps (dev port E : Type) : Type := {
  Serial : config_value -> config_value -> config_value -> dev -> (E + port) * dev;
  sleep : Z -> dev -> (E + unit) * dev;
  in_waiting : port -> dev -> (E + Z) * dev;
  serial_read : port -> Z -> dev -> (E + bytes) * dev;
  serial_close : port -> dev -> (E + unit) * dev
}.

Section Transport.
Context {dev port E : Type} `{!SerialOps dev port E}.

(** [config[key]] *)
Definition getitem (config : gmap string config_value) (key : string)
    : transport_error E + config_value :=
  match config !! key with
  | Some v => inr v
  | None => inl (KeyError key)
  end.

(** The body of the [with] statement. *)
Definition get_bytes_body (n : Z) (sensor : port) (s : dev)
    : (E + bytes) * dev :=
  match sleep n s with
  | (inl e, s1) => (inl e, s1)
  | (inr _, s1) =>
      match in_waiting sensor s1 with
      | (inl e, s2) => (inl e, s2)
      | (inr bytes_waiting, s2) => serial_read sensor bytes_waiting s2
      end
  end.

(** [get_bytes(n, config)]: the three dictionary lookups, left to right,
    the constructor, the body, and [close] on the way out of the [with],
    whose exception takes over. *)
Definition get_bytes (n : Z) (config : gmap string config_value) (s : dev)
    : (transport_error E + bytes) * dev :=
  match getitem config "path" with
  | inl e => (inl e, s)
  | inr path =>
  match getitem config "baud" with
  | inl e => (inl e, s)
  | inr baud =>
  match getitem config "timeout" with
  | inl e => (inl e, s)
  | inr timeout =>
  match Serial path baud timeout s with
  | (inl e, s0) => (inl (DeviceError e), s0)
  | (inr sensor, s0) =>
      match get_bytes_body n sensor s0 with
      | (inr data, s3) =>
          match serial_close sensor s3 with
          | (inr _, s4) => (inr data, s4)
          | (inl e, s4) => (inl (DeviceError e), s4)
          end
      | (inl e, s3) =>
          match serial_close sensor s3 with
          | (inr _, s4) => (inl (DeviceError e), s4)
          | (inl e', s4) => (inl (DeviceError e'), s4)
          end
      end
  end end end end.

(** Leaving the [with] statement after the body ended in [r]: [close] is
    called, and its exception, if any, is the one that propagates. *)
Definition leave_with (sensor : port) (r : E + bytes) (s : dev)
    : (transport_error E + bytes) * dev :=
  match serial_close sensor s with
  | (inr _, s') =>
      (match r with inr data => inr data | inl e => inl (DeviceError e) end, s')
  | (inl e', s') => (inl (DeviceError e'), s')
  end.

End Transport.

(** The calls made on the device, in order. *)
Inductive call (port : Type) : Type :=
  | CallSerial (path baud timeout : config_value)
  | CallSleep (n : Z)
  | CallInWaiting (p : port)
  | CallRead (p : port) (size : Z)
  | CallClose (p : port).
Arguments CallSerial {port} path baud timeout.
Arguments CallSleep {port} n.
Arguments CallInWaiting {port} p.
Arguments CallRead {port} p size.
Arguments CallClose {port} p.

(** Any device, with every call written to a log before it is made. *)
Definition logged {dev port E A} (c : call port) (op : dev -> (E + A) * dev)
    : dev * list (call port) -> (E + A) * (dev * list (call port)) :=
  fun '(s, log) => let '(r, s') := op s in (r, (s', log ++ [c])).

Definition logged_ops {dev port E} `{!SerialOps dev port E}
    : SerialOps (dev * list (call port)) port E := {|
  Serial path baud timeout := logged (CallSerial path baud timeout) (Serial path baud timeout);
  sleep n := logged (CallSleep n) (sleep n);
  in_waiting p := logged (CallInWaiting p) (in_waiting p);
  serial_read p size := logged (CallRead p size) (serial_read p size);
  serial_close p := logged (CallClose p) (serial_close p)
|}.

(** The calls [get_bytes] makes on a device, from an empty log. *)
Definition get_bytes_calls {dev port E} `{!SerialOps dev port E}
    (n : Z) (config : gmap string config_value) (s : dev) : list (call port) :=
  (@get_bytes _ _ _ logged_ops n config (s, [])).2.2.

(** A port to run [get_bytes] on: the device is the bytes waiting in its
    buffer, every call succeeds, and [read(size)] takes [size] of them. *)
Definition buffered_port : SerialOps bytes unit unit := {|
  Serial _ _ _ waiting := (inr (), waiting);
  sleep _ waiting := (inr (), waiting);
  in_waiting _ waiting := (inr (Z.of_nat (length waiting)), waiting);
  serial_read _ size waiting :=
    (inr (take (Z.to_nat size) waiting), drop (Z.to_nat size) waiting);
  serial_close _ waiting := (inr (), waiting)
|}.

(** How lines 87 to 90 of the entry point end when they raise. *)
Inductive main_error : Type :=
  | IndexError
      (* line 87, "list index out of range" *)
  | UnpackSize (required : Z)
      (* line 88, struct.error "unpack requires a buffer of <required> bytes" *)
  | TimestampError (e : exn).
      (* line 90, what [get_timestamp] raised *)

(** [struct.unpack(f, buffer)]: the buffer must hold exactly [calcsize f]
    bytes. *)
Definition unpack (o : byte_order) (f : format) (buffer : bytes) : main_error + Z :=
  if (length buffer =? calcsize f)%nat then inr (unpack_value o f buffer)
  else inl (UnpackSize (Z.of_nat (calcsize f))).

(** Lines 87 to 90 of the entry point, on the capture [bytes]:
    [byte = bytes.split(b'\x3a')[1]], then
    [struct.unpack('h', bytearray(bytes[0:0+2]))], whose value is dropped,
    then [timestamp = get_timestamp(byte)]. *)
Definition main_timestamp (o : byte_order) (capture : bytes) : main_error + Z :=
  match split DELIMITER capture !! 1%nat with
  | None => inl IndexError
  | Some byte =>
      match unpack o fmt_h (slice 0 (0 + 2) capture) with
      | inl e => inl e
      | inr _ =>
          match get_timestamp o byte with
          | Ok timestamp => inr timestamp
          | Raise e => inl (TimestampError e)
          end
      end
  end.

(* ================================================================= *)
(** * Properties *)

(** Closed powers such as [2 ^ (8 * Z.of_nat 2)] are replaced by their value. *)
Ltac eval_pows :=
  repeat match goal with
  | |- context [Z.pow ?a ?b] =>
      let c := eval vm_compute in (Z.pow a b) in
      progress change (Z.pow a b) with c
  | H : context [Z.pow ?a ?b] |- _ =>
      let c := eval vm_compute in (Z.pow a b) in
      progress change (Z.pow a b) with c in H
  end.

(** ** Lists of bytes, two at a time *)

Lemma pair_induction (P : bytes -> Prop) :
  P [] -> (forall b, P [b]) -> (forall b0 b1 r, P r -> P (b0 :: b1 :: r)) ->
  forall l, P l.
Proof.
  intros Hnil Hone Hstep l.
  cut (P l /\ forall b, P (b :: l)); [tauto|].
  induction l as [|x l [IH1 IH2]]; split; auto.
Qed.

Lemma even_length_mod (n : nat) :
  (Z.of_nat n mod Z.of_nat 2 =? 0) = Nat.even n.
Proof.
  change (Z.of_nat 2) with 2. rewrite <- Zeven_mod.
  cut (Z.even (Z.of_nat n) = Nat.even n
       /\ Z.even (Z.of_nat (S n)) = Nat.even (S n)); [tauto|].
  induction n as [|n [IH0 IH1]]; split; try reflexivity; try assumption.
  rewrite Nat.even_succ_succ, <- IH0.
  replace (Z.of_nat (S (S n))) with (Z.of_nat n + 2 * 1) by lia.
  apply Z.even_add_mul_2.
Qed.

Section Struct.
Variable o : byte_order.

Lemma int16_groups_length (p : bytes) :
  length (int16_groups o p) = (length p / 2)%nat.
Proof.
  induction p as [|b|b0 b1 r IH] using pair_induction; try reflexivity.
  cbn [int16_groups length]. rewrite IH.
  change (S (S (length r))) with (1 * 2 + length r)%nat.
  rewrite Nat.div_add_l by lia. reflexivity.
Qed.

Lemma drain_groups (fuel : nat) (buf : bytes) (i : nat) :
  Nat.even (length buf - i) = true ->
  (length buf - i <= fuel)%nat ->
  drain o fuel {| it_format := fmt_h; it_buffer := buf; it_index := i |}
  = int16_groups o (drop i buf).
Proof.
  revert i. induction fuel as [|fuel IH]; intros i Heven Hfuel.
  - rewrite drop_ge by lia. reflexivity.
  - cbn [drain]. unfold iter_next. cbn [it_buffer it_index it_format calcsize].
    destruct (Nat.leb_spec (length buf) i) as [Hle|Hlt].
    + rewrite drop_ge by lia. reflexivity.
    + destruct (lookup_lt_is_Some_2 buf i Hlt) as [b0 Hb0].
      assert (Hlt' : (S i < length buf)%nat).
      { destruct (decide (S i = length buf)) as [E|]; [|lia].
        replace (length buf - i)%nat with 1%nat in Heven by lia. discriminate. }
      destruct (lookup_lt_is_Some_2 buf (S i) Hlt') as [b1 Hb1].
      rewrite (drop_S _ _ _ Hb0), (drop_S _ _ _ Hb1).
      cbn [take int16_groups]. f_equal.
      replace (i + 2)%nat with (S (S i)) by lia.
      apply IH; [|lia].
      replace (length buf - i)%nat with (S (S (length buf - S (S i)))) in Heven by lia.
      now rewrite Nat.even_succ_succ in Heven.
Qed.

(** [get_data] on any buffer: refused when the length is odd, every
    2-byte group otherwise. *)
Lemma get_data_spec (buf : bytes) :
  get_data o buf =
    if Nat.even (length buf) then Ok (int16_groups o buf)
    else Raise (StructError (NotAMultiple 2)).
Proof.
  unfold get_data, iter_unpack. cbn [calcsize].
  rewrite even_length_mod.
  destruct (Nat.even (length buf)) eqn:Heven; [|reflexivity].
  cbn. f_equal.
  rewrite drain_groups; rewrite ?Nat.sub_0_r; auto.
Qed.

End Struct.

(** ** Fixed-width integers *)

Lemma byte_val_bound (b : byte) : 0 <= byte_val b < 256.
Proof.
  unfold byte_val. pose proof (Byte.to_N_bounded b) as H.
  split; [apply N2Z.is_nonneg|].
  apply N2Z.inj_le in H. change (Z.of_N 255) with 255 in H. lia.
Qed.

Lemma byte_val_of_Z (z : Z) : byte_val (byte_of_Z z) = z mod 256.
Proof.
  unfold byte_of_Z, byte_val.
  pose proof (Z.mod_pos_bound z 256 eq_refl) as Hz.
  destruct (Byte.of_N (Z.to_N (z mod 256))) as [b|] eqn:Hb.
  - cbn. rewrite (Byte.to_of_N _ Hb). apply Z2N.id. lia.
  - apply Byte.of_N_None_iff in Hb. lia.
Qed.

Lemma le_unsigned_bound (bs : bytes) :
  0 <= le_unsigned bs < 256 ^ Z.of_nat (length bs).
Proof.
  induction bs as [|b bs IH]; [cbn; lia|].
  cbn [le_unsigned length]. rewrite Nat2Z.inj_succ, Z.pow_succ_r by lia.
  pose proof (byte_val_bound b). lia.
Qed.

Lemma le_unsigned_le_bytes (n : nat) (u : Z) :
  le_unsigned (le_bytes n u) = u mod 256 ^ Z.of_nat n.
Proof.
  revert u. induction n as [|n IH]; intros u.
  - cbn. now rewrite Z.mod_1_r.
  - cbn [le_bytes le_unsigned].
    rewrite byte_val_of_Z, IH, Nat2Z.inj_succ, Z.pow_succ_r by lia.
    rewrite Z.rem_mul_r; [reflexivity|lia|]. apply Z.pow_pos_nonneg; lia.
Qed.

Lemma length_le_bytes (n : nat) (u : Z) : length (le_bytes n u) = n.
Proof. revert u. induction n; intros; cbn; auto. Qed.

Lemma length_pack (o : byte_order) (f : format) (v : Z) :
  length (pack o f v) = calcsize f.
Proof.
  unfold pack. destruct o; rewrite ?length_rev; apply length_le_bytes.
Qed.

Lemma unpack_value_range (o : byte_order) (f : format) (bs : bytes) :
  length bs = calcsize f -> in_range f (unpack_value o f bs).
Proof.
  intros Hlen. unfold in_range, unpack_value, to_signed.
  assert (Hu : 0 <= unsigned o bs < 256 ^ Z.of_nat (calcsize f)).
  { rewrite <- Hlen. destruct o; cbn [unsigned].
    - apply le_unsigned_bound.
    - rewrite <- (length_rev bs). apply le_unsigned_bound. }
  destruct f; cbn [calcsize] in *; eval_pows;
    match goal with |- context [?a <? ?b] => destruct (Z.ltb_spec a b) end; lia.
Qed.

Lemma unpack_pack (o : byte_order) (f : format) (v : Z) :
  in_range f v -> unpack_value o f (pack o f v) = v.
Proof.
  intros Hv. unfold unpack_value.
  assert (Hu : unsigned o (pack o f v) = v mod 2 ^ (8 * Z.of_nat (calcsize f))).
  { unfold pack. destruct o; cbn [unsigned]; rewrite ?rev_involutive;
      rewrite le_unsigned_le_bytes; destruct f; cbn [calcsize]; eval_pows;
      rewrite Z.mod_mod; lia. }
  rewrite Hu. unfold to_signed, in_range in *.
  destruct f; cbn [calcsize] in *; eval_pows;
    match goal with |- context [?a <? ?b] => destruct (Z.ltb_spec a b) end;
    match goal with |- context [v mod ?m] =>
      pose proof (Z.mod_pos_bound v m eq_refl);
      destruct (Z.le_gt_cases 0 v);
        [rewrite Z.mod_small in * by lia
        |replace (v mod m) with (v + m) in *
           by (apply Z.mod_unique with (-1); lia)]
    end; lia.
Qed.

(** ** Slices *)

Lemma length_slice (lo hi : nat) (b : bytes) :
  length (slice lo hi b) = ((hi - lo) `min` (length b - lo))%nat.
Proof. unfold slice. now rewrite length_take, length_drop. Qed.

Lemma lookup_slice (lo hi : nat) (b : bytes) (i : nat) :
  (i < hi - lo)%nat -> slice lo hi b !! i = b !! (lo + i)%nat.
Proof. intros Hi. unfold slice. now rewrite lookup_take_lt, lookup_drop. Qed.

Lemma slice_ext (lo hi : nat) (f1 f2 : bytes) :
  (forall i, (lo <= i < hi)%nat -> f1 !! i = f2 !! i) ->
  slice lo hi f1 = slice lo hi f2.
Proof.
  intros Hagree. apply list_eq. intros i. unfold slice.
  destruct (decide (i < hi - lo)%nat) as [Hi|Hi].
  - rewrite !lookup_take_lt, !lookup_drop by assumption. apply Hagree. lia.
  - rewrite !lookup_take_ge by lia. reflexivity.
Qed.

Lemma length_get_data_array (frame : bytes) :
  length (get_data_array frame) = ((length frame - 10) `min` 14)%nat.
Proof. unfold get_data_array. rewrite length_slice. lia. Qed.

(** ** The decoding steps *)

Section Decoding.
Variable o : byte_order.

Lemma int16_groups_lookup (p : bytes) :
  forall k b0 b1,
    p !! (2 * k)%nat = Some b0 -> p !! (2 * k + 1)%nat = Some b1 ->
    int16_groups o p !! k = Some (unpack_value o fmt_h [b0; b1]).
Proof.
  induction p as [|b|c0 c1 r IH] using pair_induction; intros k b0 b1 H0 H1.
  - discriminate.
  - destruct k; [discriminate|].
    replace (2 * S k)%nat with (S (S (2 * k))) in H0 by lia. discriminate.
  - destruct k as [|k].
    + cbn in H0, H1. now simplify_eq.
    + replace (2 * S k)%nat with (S (S (2 * k))) in H0 by lia.
      replace (2 * S k + 1)%nat with (S (S (2 * k + 1))) in H1 by lia.
      cbn [int16_groups]. cbn in H0, H1 |- *. now apply IH.
Qed.

Lemma get_timestamp_spec (frame : bytes) :
  get_timestamp o frame =
    if (length frame <? 10)%nat
    then Raise (StructError (BufferTooSmall 10 (Z.of_nat (length frame))))
    else Ok (unpack_value o fmt_i (slice 6 10 frame)).
Proof.
  unfold get_timestamp, unpack_from. cbn [calcsize].
  destruct (Nat.ltb_spec (length frame) 10);
    match goal with |- context [?a <? ?b] => destruct (Z.ltb_spec a b) end;
    try lia; reflexivity.
Qed.

Lemma get_timestamp_packed (pre rest : bytes) (v : Z) :
  length pre = 6%nat -> in_range fmt_i v ->
  get_timestamp o (pre ++ pack o fmt_i v ++ rest) = Ok v.
Proof.
  intros Hpre Hv. rewrite get_timestamp_spec.
  pose proof (length_pack o fmt_i v) as Hp. cbn [calcsize] in Hp.
  destruct (Nat.ltb_spec (length (pre ++ pack o fmt_i v ++ rest)) 10) as [Hlt|_].
  - rewrite !length_app in Hlt. lia.
  - unfold slice. rewrite drop_app_length' by lia.
    rewrite take_app_length' by lia.
    now rewrite unpack_pack.
Qed.

Lemma get_samples_spec (frame : bytes) :
  get_samples o frame =
    if Nat.even (length (get_data_array frame))
    then Ok (int16_groups o (get_data_array frame))
    else Raise (StructError (NotAMultiple 2)).
Proof. apply get_data_spec. Qed.

Lemma decode_spec (frame : bytes) :
  decode o frame =
    if (length frame <? 10)%nat
    then Raise (StructError (BufferTooSmall 10 (Z.of_nat (length frame))))
    else if Nat.even (length (get_data_array frame))
    then Ok {| timestamp := unpack_value o fmt_i (slice 6 10 frame);
               samples := int16_groups o (get_data_array frame) |}
    else Raise (StructError (NotAMultiple 2)).
Proof.
  unfold decode. rewrite get_timestamp_spec, get_samples_spec.
  destruct (length frame <? 10)%nat; [reflexivity|].
  destruct (Nat.even (length (get_data_array frame))); reflexivity.
Qed.

End Decoding.

(** ** The steps on small buffers *)

Example get_data_little_endian :
  get_data LittleEndian [Byte.x01; Byte.x00; Byte.xff; Byte.xff; Byte.x07; Byte.x00]
  = Ok [1; -1; 7].
Proof. reflexivity. Qed.

Example get_data_big_endian :
  get_data BigEndian [Byte.x00; Byte.x01; Byte.xff; Byte.xff; Byte.x00; Byte.x07]
  = Ok [1; -1; 7].
Proof. reflexivity. Qed.

Example get_data_odd_length :
  get_data LittleEndian [Byte.x01; Byte.x00; Byte.xff]
  = Raise (StructError (NotAMultiple 2)).
Proof. reflexivity. Qed.

Example get_timestamp_little_endian :
  get_timestamp LittleEndian
    (replicate 6 Byte.x00 ++ [Byte.xd2; Byte.x04; Byte.x00; Byte.x00])
  = Ok 1234.
Proof. reflexivity. Qed.

Example get_timestamp_byte_short : get_timestamp_byte (replicate 6 Byte.x00) = [].
Proof. reflexivity. Qed.

(** ** Sample extraction *)

(** C1, at explicit frames.  A frame of 11 bytes has a payload of one byte:
    [get_data] is handed [frame[10:24]] of odd length and [iter_unpack]
    refuses it, where the claim promises an empty sample list.  A frame of
    26 bytes has a payload of 16 bytes, 8 groups, and yields 7 samples. *)
Lemma get_samples_counterexample :
  length (payload (replicate 11 Byte.x00)) = 1%nat
  /\ int16_groups LittleEndian (payload (replicate 11 Byte.x00)) = []
  /\ get_samples LittleEndian (replicate 11 Byte.x00)
     = Raise (StructError (NotAMultiple 2))
  /\ (length (payload (replicate 26 Byte.x00)) / 2)%nat = 8%nat
  /\ get_samples LittleEndian (replicate 26 Byte.x00) = Ok (replicate 7 0).
Proof. repeat split; vm_compute; reflexivity. Qed.

(** C1 (amended).  The samples are the consecutive 2-byte groups of the
    window [frame[10:24]] (the first 14 payload bytes at most), each read
    as a signed 16-bit integer, in stream order: sample [k] comes from the
    bytes at offsets [10 + 2k] and [10 + 2k + 1].  When the window has even
    length the sample sequence has exactly half that length; when it has
    odd length [struct.error] is raised and nothing is discarded. *)
Theorem get_samples_groups (o : byte_order) (frame : bytes) :
  let window := take 14 (payload frame) in
  get_samples o frame =
    (if Nat.even (length window) then Ok (int16_groups o window)
     else Raise (StructError (NotAMultiple 2)))
  /\ length window = ((length frame - 10) `min` 14)%nat
  /\ length (int16_groups o window) = (length window / 2)%nat
  /\ (forall k b0 b1,
        (k < 7)%nat ->
        frame !! (10 + 2 * k)%nat = Some b0 ->
        frame !! (10 + 2 * k + 1)%nat = Some b1 ->
        int16_groups o window !! k = Some (unpack_value o fmt_h [b0; b1])).
Proof.
  cbn zeta. change (take 14 (payload frame)) with (get_data_array frame).
  repeat split.
  - apply get_samples_spec.
  - apply length_get_data_array.
  - apply int16_groups_length.
  - intros k b0 b1 Hk H0 H1. apply int16_groups_lookup.
    + unfold get_data_array. rewrite lookup_slice by lia. exact H0.
    + unfold get_data_array. rewrite lookup_slice by lia.
      now replace (10 + (2 * k + 1))%nat with (10 + 2 * k + 1)%nat by lia.
Qed.

(** ** Failure of decoding *)

(** C2, at an explicit frame: 11 bytes are at least 10 and decoding fails. *)
Lemma decode_counterexample :
  (10 <= length (replicate 11 Byte.x00))%nat
  /\ is_ok (decode LittleEndian (replicate 11 Byte.x00)) = false
  /\ decode LittleEndian (replicate 11 Byte.x00)
     = Raise (StructError (NotAMultiple 2)).
Proof. repeat split; vm_compute; try reflexivity. lia. Qed.

(** C2 (amended).  Full decoding fails exactly when the frame is shorter
    than 10 bytes or the window [frame[10:24]] has odd length (frames of
    11, 13, ..., 23 bytes).  The only exception it raises is
    [struct.error]: from [unpack_from] in the first case, from
    [iter_unpack] in the second. *)
Theorem decode_failure (o : byte_order) (frame : bytes) :
  (is_ok (decode o frame) = false <->
     (length frame < 10)%nat
     \/ Nat.even ((length frame - 10) `min` 14) = false)
  /\ (forall e, decode o frame = Raise e ->
        (e = StructError (BufferTooSmall 10 (Z.of_nat (length frame)))
         /\ (length frame < 10)%nat)
        \/ (e = StructError (NotAMultiple 2)
            /\ (10 <= length frame)%nat
            /\ Nat.even ((length frame - 10) `min` 14) = false)).
Proof.
  rewrite decode_spec, length_get_data_array.
  destruct (Nat.ltb_spec (length frame) 10) as [Hlt|Hge].
  - split; [split; auto|]. intros e [= <-]. left. auto.
  - destruct (Nat.even ((length frame - 10) `min` 14)) eqn:Heven.
    + split; [|discriminate]. cbn. split; [discriminate|].
      intros [?|?]; [lia|discriminate].
    + split; [split; auto|]. intros e [= <-]. right. auto.
Qed.

(** ** The timestamp *)

(** C7, at an explicit frame: 6 bytes are not fewer than 6 and
    [get_timestamp] fails; [unpack_from] asks for 10. *)
Lemma get_timestamp_counterexample :
  length (replicate 6 Byte.x00) = 6%nat
  /\ get_timestamp LittleEndian (replicate 6 Byte.x00)
     = Raise (StructError (BufferTooSmall 10 6))
  /\ get_timestamp LittleEndian (replicate 9 Byte.x00)
     = Raise (StructError (BufferTooSmall 10 9)).
Proof. repeat split. Qed.

Lemma get_timestamp_byte_spec (frame : bytes) :
  get_timestamp_byte frame = option_list (frame !! 6%nat).
Proof.
  unfold get_timestamp_byte, slice.
  destruct (frame !! 6%nat) as [x|] eqn:Hx.
  - now rewrite (drop_S _ _ _ Hx).
  - apply lookup_ge_None in Hx. now rewrite drop_ge.
Qed.

(** C7 (amended).  [get_timestamp], callable on its own, fails with
    [struct.error] exactly when the frame is shorter than 10 bytes; for
    every frame of at least 10 bytes it returns the signed 32-bit value of
    the 4 bytes at offset 6: what [pack('i', v)] put there, and always
    within [-2^31 .. 2^31 - 1].  [get_timestamp_byte] never fails: it is
    the byte at offset 6 when the frame has one, and empty otherwise. *)
Theorem get_timestamp_threshold (o : byte_order) (frame : bytes) :
  (is_ok (get_timestamp o frame) = false <-> (length frame < 10)%nat)
  /\ get_timestamp o frame =
       (if (length frame <? 10)%nat
        then Raise (StructError (BufferTooSmall 10 (Z.of_nat (length frame))))
        else Ok (unpack_value o fmt_i (slice 6 10 frame)))
  /\ (forall pre v rest,
        frame = pre ++ pack o fmt_i v ++ rest -> length pre = 6%nat ->
        in_range fmt_i v -> get_timestamp o frame = Ok v)
  /\ (forall ts, get_timestamp o frame = Ok ts -> - 2 ^ 31 <= ts < 2 ^ 31)
  /\ get_timestamp_byte frame = option_list (frame !! 6%nat).
Proof.
  split; [|split; [|split; [|split]]].
  - rewrite get_timestamp_spec.
    destruct (Nat.ltb_spec (length frame) 10); cbn; split; auto; try discriminate; lia.
  - apply get_timestamp_spec.
  - intros pre v rest -> Hpre Hv. now apply get_timestamp_packed.
  - intros ts Hts. rewrite get_timestamp_spec in Hts.
    destruct (Nat.ltb_spec (length frame) 10); [discriminate|].
    injection Hts as <-.
    apply (unpack_value_range o fmt_i). rewrite length_slice. cbn [calcsize]. lia.
  - apply get_timestamp_byte_spec.
Qed.

(** ** The scenario frame *)

(** C4, at the frame itself: the four zero bytes after the timestamp are
    payload, so five samples come out, not three. *)
Lemma scenario_counterexample :
  exists fr,
    decode LittleEndian (scenario_frame LittleEndian) = Ok fr
    /\ length (samples fr) = 5%nat
    /\ samples fr <> [1; -1; 7].
Proof.
  eexists. split; [vm_compute; reflexivity|]. split; [reflexivity|discriminate].
Qed.

(** C4 (amended).  The scenario frame has 20 bytes; in either byte order it
    decodes to timestamp 1234 and to the five samples [0, 0, 1, -1, 7]:
    the 10 bytes from offset 10 on are the 4 zero bytes and the three
    packed values. *)
Theorem scenario_decodes (o : byte_order) :
  length (scenario_frame o) = 20%nat
  /\ payload (scenario_frame o)
     = replicate 4 Byte.x00 ++ pack o fmt_h 1 ++ pack o fmt_h (-1) ++ pack o fmt_h 7
  /\ decode o (scenario_frame o)
     = Ok {| timestamp := 1234; samples := [0; 0; 1; -1; 7] |}.
Proof.
  destruct o; repeat split; vm_compute; reflexivity.
Qed.

(** ** Splitting at the delimiter *)

Lemma split_scan_nonempty (d : byte) (cur b : bytes) : split_scan d cur b <> [].
Proof.
  revert cur. induction b as [|x b IH]; intros cur; cbn; [discriminate|].
  destruct (decide (x = d)); [discriminate|apply IH].
Qed.

Lemma join_cons (d : byte) (p : bytes) (ps : list bytes) :
  ps <> [] -> join d (p :: ps) = p ++ d :: join d ps.
Proof. destruct ps; [congruence|reflexivity]. Qed.

Lemma join_split_scan (d : byte) (cur b : bytes) :
  join d (split_scan d cur b) = cur ++ b.
Proof.
  revert cur. induction b as [|x b IH]; intros cur; cbn [split_scan].
  - cbn. now rewrite app_nil_r.
  - destruct (decide (x = d)) as [->|Hne].
    + rewrite join_cons by apply split_scan_nonempty.
      now rewrite IH.
    + rewrite IH, <- app_assoc. reflexivity.
Qed.

Lemma split_scan_free (d : byte) (cur b : bytes) :
  d ∉ cur -> Forall (fun c => d ∉ c) (split_scan d cur b).
Proof.
  revert cur. induction b as [|x b IH]; intros cur Hcur; cbn [split_scan].
  - constructor; [assumption|constructor].
  - destruct (decide (x = d)) as [->|Hne].
    + constructor; [assumption|]. apply IH. apply not_elem_of_nil.
    + apply IH. rewrite elem_of_app, list_elem_of_singleton.
      intros [?|?]; [contradiction|congruence].
Qed.

Lemma length_split_scan (d : byte) (cur b : bytes) :
  length (split_scan d cur b) = S (length (filter (fun x => x = d) b)).
Proof.
  revert cur. induction b as [|x b IH]; intros cur; cbn [split_scan]; [reflexivity|].
  destruct (decide (x = d)) as [->|Hne].
  - rewrite filter_cons_True by reflexivity. cbn. now rewrite IH.
  - rewrite filter_cons_False by assumption. apply IH.
Qed.

Lemma split_scan_no_delimiter (d : byte) (cur b : bytes) :
  d ∉ b -> split_scan d cur b = [cur ++ b].
Proof.
  revert cur. induction b as [|x b IH]; intros cur Hb; cbn [split_scan].
  - now rewrite app_nil_r.
  - apply not_elem_of_cons in Hb as [Hx Hb].
    destruct (decide (x = d)) as [->|_]; [congruence|].
    rewrite IH, <- app_assoc by assumption. reflexivity.
Qed.

(** The leading-delimiter scenario: [b":abc".split(b":")] is [[b"", b"abc"]],
    and the empty first candidate does not decode. *)
Example split_leading_delimiter :
  split DELIMITER [Byte.x3a; Byte.x61; Byte.x62; Byte.x63]
  = [[]; [Byte.x61; Byte.x62; Byte.x63]]
  /\ is_ok (decode LittleEndian []) = false.
Proof. split; reflexivity. Qed.

(** A delimiter byte inside a payload cuts one frame into two candidates:
    here the first decodes to a single sample and the second is too short. *)
Example split_inside_payload :
  split DELIMITER (replicate 12 Byte.x00 ++ [Byte.x3a] ++ replicate 3 Byte.x00)
  = [replicate 12 Byte.x00; replicate 3 Byte.x00]
  /\ decode LittleEndian <$> [replicate 12 Byte.x00; replicate 3 Byte.x00]
     = [Ok {| timestamp := 0; samples := [0] |};
        Raise (StructError (BufferTooSmall 10 3))].
Proof. split; reflexivity. Qed.

(** C5.  Joining the candidates of [split] with one delimiter between
    neighbours gives the buffer back, no candidate contains the delimiter,
    and there is one candidate more than there are delimiters. *)
Theorem join_split (d : byte) (b : bytes) :
  join d (split d b) = b
  /\ Forall (fun c => d ∉ c) (split d b)
  /\ length (split d b) = S (length (filter (fun x => x = d) b)).
Proof.
  unfold split. split; [|split].
  - apply join_split_scan.
  - apply split_scan_free, not_elem_of_nil.
  - apply length_split_scan.
Qed.

(** C6, at the empty buffer: [b"".split(b":")] is [[b""]], one candidate. *)
Lemma split_empty_counterexample :
  split DELIMITER [] = [[]] /\ length (split DELIMITER []) = 1%nat.
Proof. split; reflexivity. Qed.

(** C6 (amended).  A buffer without the delimiter, empty or not, splits
    into exactly one candidate, the buffer itself.  For the empty buffer
    that candidate is the empty frame, which does not decode: decoding the
    candidates of an empty acquisition gives no frame and one
    [struct.error]. *)
Theorem split_no_delimiter (o : byte_order) (d : byte) (b : bytes) :
  d ∉ b ->
  split d b = [b]
  /\ split d [] = [[]]
  /\ decode o <$> split d [] = [Raise (StructError (BufferTooSmall 10 0))].
Proof.
  intros Hb. split; [|split].
  - unfold split. now rewrite split_scan_no_delimiter.
  - reflexivity.
  - cbn. now rewrite decode_spec.
Qed.

Lemma split_no_delimiter_witness :
  split DELIMITER [Byte.x61; Byte.x62; Byte.x63] = [[Byte.x61; Byte.x62; Byte.x63]].
Proof.
  apply (split_no_delimiter LittleEndian DELIMITER [Byte.x61; Byte.x62; Byte.x63]).
  compute_done.
Defined.

(** ** One candidate, one result *)

Section Evaluation.
Variable o : byte_order.

Lemma drains_deterministic (it : unpack_iterator) (d1 d2 : list Z) :
  drains o it d1 -> drains o it d2 -> d1 = d2.
Proof.
  intros H1. revert d2.
  induction H1 as [it Hstop|it datum it' data Hnext _ IH]; intros d2 H2.
  - inversion H2 as [|? ? ? ? Hnext2]; [reflexivity|congruence].
  - inversion H2 as [? Hstop|? datum2 it2 data2 Hnext2 Hrest]; subst.
    + congruence.
    + rewrite Hnext in Hnext2. injection Hnext2 as <- <-.
      f_equal. now apply IH.
Qed.

(** The loop ends: with a bound of one item per remaining byte, [drain]
    stops at StopIteration, never at the bound. *)
Lemma drain_drains (fuel : nat) (it : unpack_iterator) :
  (length (it_buffer it) - it_index it <= fuel)%nat ->
  drains o it (drain o fuel it).
Proof.
  revert it. induction fuel as [|fuel IH]; intros it Hfuel.
  - apply drains_stop. unfold iter_next.
    destruct (Nat.leb_spec (length (it_buffer it)) (it_index it)); [reflexivity|lia].
  - cbn [drain]. destruct (iter_next o it) as [[datum it']|] eqn:Hnext.
    + eapply drains_item; [exact Hnext|]. apply IH.
      unfold iter_next in Hnext.
      destruct (Nat.leb_spec (length (it_buffer it)) (it_index it)); [discriminate|].
      injection Hnext as _ <-. cbn [it_buffer it_index].
      destruct (it_format it); cbn [calcsize]; lia.
    + now apply drains_stop.
Qed.

Lemma get_data_returns_deterministic (buf : bytes) (r1 r2 : result (list Z)) :
  get_data_returns o buf r1 -> get_data_returns o buf r2 -> r1 = r2.
Proof.
  intros [e1 H1|it1 d1 H1 Hd1] [e2 H2|it2 d2 H2 Hd2]; try congruence.
  rewrite H1 in H2. injection H2 as <-.
  f_equal. eapply drains_deterministic; eassumption.
Qed.

Lemma get_data_returns_get_data (buf : bytes) :
  get_data_returns o buf (get_data o buf).
Proof.
  unfold get_data. destruct (iter_unpack fmt_h buf) as [it|e] eqn:Hit.
  - cbn. eapply get_data_drained; [exact Hit|]. apply drain_drains.
    unfold iter_unpack in Hit.
    destruct (_ =? _) in Hit; [|discriminate].
    injection Hit as <-. cbn. lia.
  - cbn. now apply get_data_refused.
Qed.

Lemma decodes_decode (frame : bytes) : decodes o frame (decode o frame).
Proof.
  unfold decode, get_samples.
  generalize (get_data_returns_get_data (get_data_array frame)).
  destruct (get_data o (get_data_array frame)) as [data|e];
    destruct (get_timestamp o frame) as [ts|e'] eqn:Hts; intros Hdata.
  - now apply decodes_frame.
  - now apply decodes_no_timestamp.
  - now apply decodes_no_samples with ts.
  - now apply decodes_no_timestamp.
Qed.

(** C9.  Decoding a candidate has one result: two runs on the same bytes
    end in the same [Frame] (same timestamp, same samples) or in the same
    exception, and that result is the value of [decode]. *)
Theorem decode_deterministic (frame : bytes) (r1 r2 : result Frame) :
  decodes o frame r1 -> decodes o frame r2 ->
  r1 = r2 /\ r1 = decode o frame.
Proof.
  assert (Hdet : forall r r', decodes o frame r -> decodes o frame r' -> r = r').
  { intros r r' [e Hts|ts e Hts Hd|ts data Hts Hd] [e' Hts'|ts' e' Hts' Hd'|ts' data' Hts' Hd'];
      try congruence;
      try (pose proof (get_data_returns_deterministic _ _ _ Hd Hd'); congruence). }
  intros H1 H2. split.
  - now apply Hdet.
  - apply Hdet; [assumption|apply decodes_decode].
Qed.

End Evaluation.

Lemma decode_deterministic_witness :
  Ok {| timestamp := 1234; samples := [0; 0; 1; -1; 7] |}
  = decode LittleEndian (scenario_frame LittleEndian).
Proof.
  apply (decode_deterministic LittleEndian (scenario_frame LittleEndian)
           (Ok {| timestamp := 1234; samples := [0; 0; 1; -1; 7] |})
           (decode LittleEndian (scenario_frame LittleEndian))).
  - apply decodes_frame; [reflexivity|].
    eapply get_data_drained; [reflexivity|].
    do 5 (eapply drains_item; [reflexivity|]).
    apply drains_stop. reflexivity.
  - apply decodes_decode.
Defined.

(** ** Every read is inside its buffer *)

Section CheckedReads.
Variable o : byte_order.

Lemma bind_done {A B} (a : A) (rs : list Checked.access) (k : A -> Checked.traced B) :
  Checked.Traced (Checked.Done a) rs ≫= k = Checked.Traced (Checked.outcome_of (k a)) (rs ++ Checked.reads (k a)).
Proof. reflexivity. Qed.

Lemma bind_raised {A B} (e : exn) (rs : list Checked.access) (k : A -> Checked.traced B) :
  Checked.Traced (Checked.Raised e) rs ≫= k = Checked.Traced (Checked.Raised e) rs.
Proof. reflexivity. Qed.

Lemma peek_range_spec (b : bytes) (start n : nat) :
  (start + n <= length b)%nat ->
  Checked.peek_range b start n
  = Checked.Traced (Checked.Done (take n (drop start b))) (pair b <$> seq start n).
Proof.
  revert start. induction n as [|n IH]; intros start Hle.
  - reflexivity.
  - cbn [Checked.peek_range].
    destruct (lookup_lt_is_Some_2 b start) as [x Hx]; [lia|].
    unfold Checked.peek. rewrite Hx, bind_done, IH, bind_done by lia.
    cbn. now rewrite (drop_S _ _ _ Hx), app_nil_r.
Qed.

Lemma checked_unpack_from (f : format) (buffer : bytes) (offset : nat) :
  Checked.unpack_from o f buffer offset
  = Checked.Traced (Checked.lift (unpack_from o f buffer offset))
           (if is_ok (unpack_from o f buffer offset)
            then pair buffer <$> seq offset (calcsize f) else []).
Proof.
  unfold Checked.unpack_from, unpack_from.
  destruct (Z.ltb_spec (Z.of_nat (length buffer) - Z.of_nat offset)
                       (Z.of_nat (calcsize f))) as [Hlt|Hge].
  - reflexivity.
  - rewrite peek_range_spec, bind_done by lia. cbn. now rewrite app_nil_r.
Qed.

Lemma checked_slice (lo hi : nat) (b : bytes) :
  Checked.slice lo hi b
  = Checked.Traced (Checked.Done (slice lo hi b))
           (pair b <$> seq (lo `min` length b)
                           ((hi `min` length b) - (lo `min` length b))).
Proof.
  unfold Checked.slice. rewrite peek_range_spec by lia. f_equal. f_equal.
  unfold slice. apply list_eq. intros i.
  rewrite !lookup_take, !lookup_drop.
  repeat case_decide; try reflexivity.
  - f_equal. lia.
  - lia.
  - symmetry. apply lookup_ge_None. lia.
Qed.

Lemma checked_drain (fuel : nat) (f : format) (buf : bytes) (i k : nat) :
  length buf = (i + k * calcsize f)%nat -> (k <= fuel)%nat ->
  Checked.drain o fuel {| it_format := f; it_buffer := buf; it_index := i |}
  = Checked.Traced (Checked.Done (drain o fuel {| it_format := f; it_buffer := buf; it_index := i |}))
           (pair buf <$> seq i (length buf - i)).
Proof.
  revert i k. induction fuel as [|fuel IH]; intros i k Hlen Hfuel.
  - assert (k = 0)%nat as -> by lia.
    replace (length buf - i)%nat with 0%nat by lia. reflexivity.
  - cbn [Checked.drain drain]. unfold Checked.iter_next, iter_next.
    cbn [it_buffer it_index it_format].
    destruct (Nat.leb_spec (length buf) i) as [Hle|Hlt].
    + replace (length buf - i)%nat with 0%nat by lia. reflexivity.
    + destruct k as [|k]; [lia|].
      rewrite peek_range_spec by lia.
      unfold mret, Checked.traced_ret. rewrite !bind_done.
      cbn [Checked.outcome_of Checked.reads]. rewrite bind_done. cbn beta iota.
      rewrite (IH (i + calcsize f)%nat k), bind_done by lia.
      cbn [Checked.outcome_of Checked.reads].
      f_equal. rewrite !app_nil_r, <- fmap_app, <- seq_app.
      do 2 f_equal. lia.
Qed.

Lemma checked_get_data (buf : bytes) :
  Checked.get_data o buf
  = Checked.Traced (Checked.lift (get_data o buf))
           (if is_ok (get_data o buf) then pair buf <$> seq 0 (length buf) else []).
Proof.
  unfold Checked.get_data, get_data, Checked.iter_unpack, iter_unpack.
  cbn [calcsize]. rewrite even_length_mod.
  destruct (Nat.even (length buf)) eqn:Heven; [|reflexivity].
  apply Nat.even_spec in Heven as [k Hk].
  unfold mret at 1, Checked.traced_ret at 1. rewrite bind_done.
  rewrite (checked_drain _ fmt_h buf 0 k) by (cbn [calcsize]; lia).
  cbn. now rewrite Nat.sub_0_r.
Qed.

(** The bytes of the frame that sample extraction copies. *)
Lemma checked_get_data_array (frame : bytes) :
  Checked.get_data_array frame
  = Checked.Traced (Checked.Done (get_data_array frame))
           (pair frame <$> seq (10 `min` length frame)
                               (length (get_data_array frame))).
Proof.
  unfold Checked.get_data_array. rewrite checked_slice.
  rewrite length_get_data_array.
  now replace ((24 `min` length frame) - (10 `min` length frame))%nat
    with ((length frame - 10) `min` 14)%nat by lia.
Qed.

Lemma checked_get_samples (frame : bytes) :
  Checked.get_samples o frame
  = Checked.Traced (Checked.lift (get_samples o frame))
           ((pair frame <$> seq (10 `min` length frame)
                                (length (get_data_array frame)))
            ++ (if is_ok (get_samples o frame)
                then pair (get_data_array frame)
                       <$> seq 0 (length (get_data_array frame))
                else [])).
Proof.
  unfold Checked.get_samples, get_samples.
  rewrite checked_get_data_array, bind_done, checked_get_data. reflexivity.
Qed.

Lemma checked_decode (frame : bytes) :
  Checked.decode o frame
  = Checked.Traced (Checked.lift (decode o frame))
           (if is_ok (get_timestamp o frame)
            then (pair frame <$> seq 6 4) ++ Checked.reads (Checked.get_samples o frame)
            else []).
Proof.
  unfold Checked.decode, decode, Checked.get_timestamp, get_timestamp.
  rewrite checked_unpack_from, checked_get_samples.
  destruct (unpack_from o fmt_i frame 6) as [ts|e]; [|reflexivity].
  cbn [Checked.lift is_ok calcsize]. rewrite bind_done. cbn [Checked.reads Checked.outcome_of].
  destruct (get_samples o frame) as [data|e]; cbn; now rewrite ?app_nil_r.
Qed.

End CheckedReads.

Lemma elem_of_reads (b : bytes) (lo n : nat) (a : Checked.access) :
  a ∈ pair b <$> seq lo n <-> a.1 = b /\ (lo <= a.2 < lo + n)%nat.
Proof.
  rewrite list_elem_of_fmap. split.
  - intros (i & -> & Hi). apply elem_of_seq in Hi. auto.
  - intros [<- Hi]. exists a.2. split; [now destruct a|now apply elem_of_seq].
Qed.

Lemma elem_of_get_samples_reads (o : byte_order) (frame : bytes) (a : Checked.access) :
  a ∈ Checked.reads (Checked.get_samples o frame) ->
  (a.1 = frame /\ (10 <= a.2 < 24)%nat /\ (a.2 < length frame)%nat)
  \/ (a.1 = get_data_array frame /\ (a.2 < length (get_data_array frame))%nat).
Proof.
  rewrite checked_get_samples. cbn [Checked.reads].
  pose proof (length_get_data_array frame) as Hlen.
  rewrite elem_of_app, elem_of_reads. intros [[-> Hi]|Hin].
  - left. repeat split; lia.
  - right. destruct (is_ok (get_samples o frame)).
    + apply elem_of_reads in Hin as [-> Hi]. split; [reflexivity|lia].
    + now apply not_elem_of_nil in Hin.
Qed.

(** C3.  With every byte taken through the bounds check, decoding a
    candidate of any length never faults: it ends as [decode] does, in a
    [Frame] or in [struct.error]; every recorded read lies inside the
    buffer it was made on; a read of the frame happens only when the
    frame has at least 10 bytes, and then below index [10 + payload_len];
    the empty frame is refused before any byte is read. *)
Theorem decode_in_bounds (o : byte_order) (frame : bytes) :
  Checked.outcome_of (Checked.decode o frame) = Checked.lift (decode o frame)
  /\ (forall a, Checked.outcome_of (Checked.decode o frame) <> Checked.OutOfBounds a)
  /\ Forall Checked.in_bounds (Checked.reads (Checked.decode o frame))
  /\ (forall i, (frame, i) ∈ Checked.reads (Checked.decode o frame) ->
        (10 <= length frame)%nat /\ (i < 10 + length (payload frame))%nat)
  /\ Checked.decode o []
     = Checked.Traced (Checked.Raised (StructError (BufferTooSmall 10 0))) [].
Proof.
  assert (Hreads : forall a, a ∈ Checked.reads (Checked.decode o frame) ->
            (10 <= length frame)%nat /\ Checked.in_bounds a).
  { intros a. rewrite checked_decode, get_timestamp_spec. cbn [Checked.reads].
    destruct (Nat.ltb_spec (length frame) 10) as [Hlt|Hge]; cbn [is_ok].
    - intros Hin. now apply not_elem_of_nil in Hin.
    - rewrite elem_of_app, elem_of_reads. unfold Checked.in_bounds.
      intros [[-> Hi]|Hin]; [split; lia|].
      apply elem_of_get_samples_reads in Hin as [(-> & _ & Hi)|[-> Hi]]; split; lia. }
  split; [|split; [|split; [|split]]].
  - now rewrite checked_decode.
  - intros a. rewrite checked_decode. cbn [Checked.outcome_of].
    destruct (decode o frame); discriminate.
  - apply Forall_forall. intros a Ha. now apply Hreads.
  - intros i Hi. destruct (Hreads _ Hi) as [Hge Hb]. split; [assumption|].
    unfold Checked.in_bounds in Hb. cbn in Hb. unfold payload.
    rewrite length_drop. lia.
  - now rewrite checked_decode, decode_spec.
Qed.

(** C10.  Sample extraction reads the frame only at offsets 10 to 23 (and
    then its own copy of those bytes); a decoded sample sequence has at
    most 7 samples; and two frames that agree at offsets 10 to 23, as far
    as either reaches, give the same result whatever follows from offset
    24 on. *)
Theorem get_samples_window (o : byte_order) (f1 f2 : bytes) :
  (forall i, (10 <= i < 24)%nat -> f1 !! i = f2 !! i) ->
  get_samples o f1 = get_samples o f2
  /\ (forall data, get_samples o f1 = Ok data -> (length data <= 7)%nat)
  /\ (forall a, a ∈ Checked.reads (Checked.get_samples o f1) ->
        (a.1 = f1 /\ (10 <= a.2 < 24)%nat) \/ a.1 = slice 10 24 f1)
  /\ Checked.outcome_of (Checked.get_samples o f1) = Checked.lift (get_samples o f2).
Proof.
  intros Hagree.
  assert (Hslice : get_data_array f1 = get_data_array f2)
    by (apply slice_ext; exact Hagree).
  assert (Hsame : get_samples o f1 = get_samples o f2)
    by (unfold get_samples; now rewrite Hslice).
  split; [exact Hsame|split; [|split]].
  - intros data Hdata. rewrite get_samples_spec in Hdata.
    destruct (Nat.even (length (get_data_array f1))); [|discriminate].
    injection Hdata as <-. rewrite int16_groups_length, length_get_data_array.
    apply Nat.Div0.div_le_upper_bound. lia.
  - intros a Ha. apply elem_of_get_samples_reads in Ha as [(? & ? & _)|[? _]]; auto.
  - now rewrite checked_get_samples, Hsame.
Qed.

Lemma get_samples_window_witness :
  get_samples LittleEndian (replicate 24 Byte.x01 ++ [Byte.x02])
  = get_samples LittleEndian (replicate 24 Byte.x01 ++ [Byte.x03; Byte.x04]).
Proof.
  apply (get_samples_window LittleEndian
           (replicate 24 Byte.x01 ++ [Byte.x02])
           (replicate 24 Byte.x01 ++ [Byte.x03; Byte.x04])).
  intros i Hi. do 24 (destruct i as [|i]; [reflexivity|]). lia.
Defined.

(** ** The file sink *)

Section FileSinkProperties.
Context {fs handle : Type} `{!FileOps fs handle}.

(** The first statement of [bytes_to_file] never raises: whatever
    [os.remove] ends in, only the state it leaves is passed on. *)
Lemma removal_never_raises (path : string) (s : fs) :
  try_except (os_remove path) (fun _ => pass) s = (Ok (), (os_remove path s).2).
Proof.
  unfold try_except, pass. destruct (os_remove path s) as [[[]|e] s']; reflexivity.
Qed.

(** The whole call is the second statement run on the state the removal
    left. *)
Lemma bytes_to_file_run (path : string) (byte_array : bytes) (s : fs) :
  bytes_to_file path byte_array s = write_to path byte_array (os_remove path s).2.
Proof. unfold bytes_to_file, and_then. now rewrite removal_never_raises. Qed.

(** C8 (amended).  [bytes_to_file] first calls [os.remove] on the path and
    ignores whatever it ends in, a normal return or any exception (a
    missing file and a refused permission alike).  It then opens the path
    for writing, writes the buffer and closes the file.  An exception of
    [open] reaches the caller unchanged and nothing is written; an
    exception of [write] reaches the caller unchanged once the file is
    closed; an exception of [close] reaches the caller unchanged, also in
    place of one of [write]; and when all three succeed the call returns
    normally. *)
Theorem bytes_to_file_errors (path : string) (byte_array : bytes) (s : fs)
    (removed : result unit) (s1 : fs) :
  os_remove path s = (removed, s1) ->
  (forall e s2,
     open_wb path s1 = (Raise e, s2) ->
     bytes_to_file path byte_array s = (Raise e, s2))
  /\ (forall sink s2 e s3 s4,
        open_wb path s1 = (Ok sink, s2) ->
        sink_write sink byte_array s2 = (Raise e, s3) ->
        sink_close sink s3 = (Ok (), s4) ->
        bytes_to_file path byte_array s = (Raise e, s4))
  /\ (forall sink s2 written s3 e s4,
        open_wb path s1 = (Ok sink, s2) ->
        sink_write sink byte_array s2 = (written, s3) ->
        sink_close sink s3 = (Raise e, s4) ->
        bytes_to_file path byte_array s = (Raise e, s4))
  /\ (forall sink s2 count s3 s4,
        open_wb path s1 = (Ok sink, s2) ->
        sink_write sink byte_array s2 = (Ok count, s3) ->
        sink_close sink s3 = (Ok (), s4) ->
        bytes_to_file path byte_array s = (Ok (), s4)).
Proof.
  intros Hremove.
  assert (Hrun : bytes_to_file path byte_array s
                 = with_open (open_wb path)
                     (fun sink => sink_write sink byte_array) s1).
  { rewrite bytes_to_file_run, Hremove. reflexivity. }
  rewrite Hrun. unfold with_open.
  split; [|split; [|split]].
  - intros e s2 Hopen. now rewrite Hopen.
  - intros sink s2 e s3 s4 Hopen Hwrite Hclose.
    now rewrite Hopen, Hwrite, Hclose.
  - intros sink s2 written s3 e s4 Hopen Hwrite Hclose.
    rewrite Hopen, Hwrite. destruct written; now rewrite Hclose.
  - intros sink s2 count s3 s4 Hopen Hwrite Hclose.
    now rewrite Hopen, Hwrite, Hclose.
Qed.

End FileSinkProperties.

(** C8, where the directory refuses changes and the file accepts writes:
    [os.remove] raises PermissionError, and the call still returns
    normally, with the file rewritten. *)
Lemma bytes_to_file_counterexample :
  @os_remove _ _ locked_directory "imu_bytes.txt" [Byte.x01]
  = (Raise (OSError PermissionError), [Byte.x01])
  /\ @bytes_to_file _ _ locked_directory "imu_bytes.txt" [Byte.x02] [Byte.x01]
     = (Ok (), [Byte.x02]).
Proof. split; reflexivity. Qed.

Lemma bytes_to_file_errors_witness :
  @bytes_to_file _ _ locked_directory "imu_bytes.txt" [Byte.x02] [Byte.x01]
  = (Ok (), [Byte.x02]).
Proof.
  eapply (@bytes_to_file_errors _ _ locked_directory "imu_bytes.txt" [Byte.x02]
            [Byte.x01] (Raise (OSError PermissionError)) [Byte.x01] eq_refl);
    reflexivity.
Defined.

(* ================================================================= *)
(** * Further properties of [main.py] *)

(** ** Packing and unpacking *)

Lemma byte_of_Z_val (b : byte) : byte_of_Z (byte_val b) = b.
Proof.
  unfold byte_of_Z. pose proof (byte_val_bound b) as Hb.
  rewrite Z.mod_small by lia. unfold byte_val.
  now rewrite N2Z.id, Byte.of_to_N.
Qed.

Lemma le_bytes_le_unsigned (bs : bytes) :
  le_bytes (length bs) (le_unsigned bs) = bs.
Proof.
  induction bs as [|b bs IH]; [reflexivity|].
  cbn [length le_bytes le_unsigned].
  pose proof (byte_val_bound b) as Hb.
  assert (Hlow : byte_of_Z (byte_val b + 256 * le_unsigned bs) = b).
  { transitivity (byte_of_Z (byte_val b)); [|apply byte_of_Z_val].
    unfold byte_of_Z.
    replace ((byte_val b + 256 * le_unsigned bs) mod 256) with (byte_val b mod 256);
      [reflexivity|].
    now rewrite (Z.mul_comm 256), Z.mod_add by lia. }
  assert (Hhigh : (byte_val b + 256 * le_unsigned bs) / 256 = le_unsigned bs).
  { rewrite (Z.mul_comm 256), Z.div_add by lia.
    rewrite Z.div_small by lia. lia. }
  now rewrite Hlow, Hhigh, IH.
Qed.

Lemma pack_unpack (o : byte_order) (f : format) (bs : bytes) :
  length bs = calcsize f -> pack o f (unpack_value o f bs) = bs.
Proof.
  intros Hlen. unfold pack, unpack_value.
  assert (Hu : 0 <= unsigned o bs < 2 ^ (8 * Z.of_nat (calcsize f))).
  { replace (2 ^ (8 * Z.of_nat (calcsize f))) with (256 ^ Z.of_nat (calcsize f))
      by (destruct f; reflexivity).
    rewrite <- Hlen. destruct o; cbn [unsigned].
    - apply le_unsigned_bound.
    - rewrite <- (length_rev bs). apply le_unsigned_bound. }
  assert (Hmod : to_signed (calcsize f) (unsigned o bs)
                   mod 2 ^ (8 * Z.of_nat (calcsize f)) = unsigned o bs).
  { unfold to_signed.
    destruct (_ <? _); [now apply Z.mod_small|].
    symmetry. apply Z.mod_unique with (-1); lia. }
  rewrite Hmod. destruct o; cbn [unsigned].
  - rewrite <- Hlen. apply le_bytes_le_unsigned.
  - rewrite <- Hlen, <- (length_rev bs), le_bytes_le_unsigned.
    apply rev_involutive.
Qed.

Section Packing.
Variable o : byte_order.

Lemma pack_h_pair (v : Z) : exists b0 b1, pack o fmt_h v = [b0; b1].
Proof.
  pose proof (length_pack o fmt_h v) as Hlen.
  destruct (pack o fmt_h v) as [|b0 [|b1 [|? ?]]]; try discriminate. eauto.
Qed.

Lemma length_pack_all (f : format) (vs : list Z) :
  length (pack_all o f vs) = (length vs * calcsize f)%nat.
Proof.
  induction vs as [|v vs IH]; [reflexivity|].
  cbn [pack_all length]. rewrite length_app, length_pack, IH. lia.
Qed.

Lemma int16_groups_pack_all (vs : list Z) :
  Forall (in_range fmt_h) vs -> int16_groups o (pack_all o fmt_h vs) = vs.
Proof.
  induction 1 as [|v vs Hv _ IH]; [reflexivity|].
  cbn [pack_all]. destruct (pack_h_pair v) as (b0 & b1 & Hp).
  rewrite Hp. cbn [app int16_groups]. rewrite IH, <- Hp.
  now rewrite unpack_pack.
Qed.

Lemma pack_all_int16_groups (buf : bytes) :
  Nat.even (length buf) = true ->
  pack_all o fmt_h (int16_groups o buf) = buf.
Proof.
  induction buf as [|b|b0 b1 r IH] using pair_induction; intros Heven.
  - reflexivity.
  - discriminate.
  - cbn [int16_groups pack_all]. rewrite pack_unpack by reflexivity.
    cbn [length] in Heven. rewrite Nat.even_succ_succ in Heven.
    now rewrite IH.
Qed.

Lemma int16_groups_range (buf : bytes) :
  Forall (in_range fmt_h) (int16_groups o buf).
Proof.
  induction buf as [|b|b0 b1 r IH] using pair_induction; try constructor.
  - now apply unpack_value_range.
  - exact IH.
Qed.

Lemma int16_groups_app (b1 b2 : bytes) :
  Nat.even (length b1) = true ->
  int16_groups o (b1 ++ b2) = int16_groups o b1 ++ int16_groups o b2.
Proof.
  induction b1 as [|b|c0 c1 r IH] using pair_induction; intros Heven.
  - reflexivity.
  - discriminate.
  - cbn [length] in Heven. rewrite Nat.even_succ_succ in Heven.
    cbn [app int16_groups]. now rewrite IH.
Qed.

Lemma get_data_packed (vs : list Z) :
  Forall (in_range fmt_h) vs ->
  get_data o (pack_all o fmt_h vs) = Ok vs.
Proof.
  intros Hvs. rewrite get_data_spec, length_pack_all. cbn [calcsize].
  replace (length vs * 2)%nat with (2 * length vs)%nat by lia.
  rewrite Nat.even_even. now rewrite int16_groups_pack_all.
Qed.

Lemma take_pack_all (k : nat) (vs : list Z) :
  take (2 * k) (pack_all o fmt_h vs) = pack_all o fmt_h (take k vs).
Proof.
  revert k. induction vs as [|v vs IH]; intros k.
  - cbn [pack_all]. now rewrite !take_nil.
  - destruct k as [|k]; [reflexivity|].
    cbn [pack_all take]. destruct (pack_h_pair v) as (b0 & b1 & ->).
    replace (2 * S k)%nat with (S (S (2 * k))) by lia.
    cbn [app take]. now rewrite IH.
Qed.

(** X1.  Unpacking what was packed: for 16-bit values [vs], [get_data] on
    [struct.pack] of them returns exactly [vs], in order. *)
Theorem get_data_pack_all (vs : list Z) :
  Forall (in_range fmt_h) vs ->
  get_data o (pack_all o fmt_h vs) = Ok vs.
Proof.
  apply get_data_packed.
Qed.

(** X2.  Nothing is lost in decoding: when [get_data] succeeds, its
    samples are all 16-bit values, there are half as many as bytes, and
    packing them gives the buffer back byte for byte. *)
Theorem get_data_repack (buf : bytes) (data : list Z) :
  get_data o buf = Ok data ->
  pack_all o fmt_h data = buf
  /\ Forall (in_range fmt_h) data
  /\ (2 * length data = length buf)%nat.
Proof.
  rewrite get_data_spec.
  destruct (Nat.even (length buf)) eqn:Heven; [|discriminate].
  intros [= <-]. split; [|split].
  - now apply pack_all_int16_groups.
  - apply int16_groups_range.
  - rewrite int16_groups_length.
    apply Nat.even_spec in Heven as [k ->].
    rewrite (Nat.mul_comm 2 k), Nat.div_mul by lia. lia.
Qed.

(** X3.  [get_data] fails exactly on buffers of odd length, of any size,
    and always with the same [struct.error]; on every buffer of even
    length it returns half as many samples as there are bytes. *)
Theorem get_data_parity (buf : bytes) :
  is_ok (get_data o buf) = Nat.even (length buf)
  /\ (forall e, get_data o buf = Raise e -> e = StructError (NotAMultiple 2))
  /\ (forall data, get_data o buf = Ok data -> length data = (length buf / 2)%nat).
Proof.
  rewrite get_data_spec. destruct (Nat.even (length buf)); repeat split.
  - discriminate.
  - intros data [= <-]. apply int16_groups_length.
  - now intros e [= <-].
  - discriminate.
Qed.

(** X4.  Decoding two buffers one after the other: when both decode, so
    does their concatenation, to the concatenation of the samples. *)
Theorem get_data_app (b1 b2 : bytes) (d1 d2 : list Z) :
  get_data o b1 = Ok d1 -> get_data o b2 = Ok d2 ->
  get_data o (b1 ++ b2) = Ok (d1 ++ d2).
Proof.
  rewrite !get_data_spec, length_app, Nat.even_add.
  destruct (Nat.even (length b1)) eqn:H1; [|discriminate].
  destruct (Nat.even (length b2)) eqn:H2; [|discriminate].
  intros [= <-] [= <-]. cbn. now rewrite int16_groups_app.
Qed.

End Packing.

Lemma get_data_pack_all_witness :
  get_data LittleEndian (pack_all LittleEndian fmt_h [1; -1; 7]) = Ok [1; -1; 7].
Proof.
  apply (get_data_pack_all LittleEndian [1; -1; 7]).
  repeat constructor; vm_compute; intuition discriminate.
Defined.

Lemma get_data_repack_witness :
  pack_all BigEndian fmt_h [1; -2] = [Byte.x00; Byte.x01; Byte.xff; Byte.xfe].
Proof.
  apply (get_data_repack BigEndian [Byte.x00; Byte.x01; Byte.xff; Byte.xfe] [1; -2]).
  reflexivity.
Defined.

Lemma get_data_app_witness :
  get_data LittleEndian ([Byte.x01; Byte.x00] ++ [Byte.xff; Byte.xff]) = Ok ([1] ++ [-1]).
Proof.
  apply (get_data_app LittleEndian [Byte.x01; Byte.x00] [Byte.xff; Byte.xff] [1] [-1]);
    reflexivity.
Defined.

(** ** The timestamp field and the sample window *)

Lemma timestamp_field (frame : bytes) :
  (10 <= length frame)%nat ->
  exists b0 b1 b2 b3,
    slice 6 10 frame = [b0; b1; b2; b3] /\ get_timestamp_byte frame = [b0].
Proof.
  intros Hlen. pose proof (length_slice 6 10 frame) as Hfield.
  destruct (slice 6 10 frame) as [|b0 [|b1 [|b2 [|b3 [|? ?]]]]] eqn:Hs;
    cbn [length] in Hfield; try lia.
  exists b0, b1, b2, b3. split; [reflexivity|].
  rewrite get_timestamp_byte_spec.
  assert (H6 : slice 6 10 frame !! 0%nat = Some b0) by now rewrite Hs.
  rewrite lookup_slice in H6 by lia. cbn in H6. now rewrite H6.
Qed.

Lemma timestamp_first_byte (o : byte_order) (frame : bytes) (ts : Z) :
  get_timestamp o frame = Ok ts ->
  exists b,
    get_timestamp_byte frame = [b]
    /\ match o with
       | LittleEndian => ts mod 256 = byte_val b
       | BigEndian => ts / 2 ^ 24 = to_signed 1 (byte_val b)
       end.
Proof.
  rewrite get_timestamp_spec.
  destruct (Nat.ltb_spec (length frame) 10) as [|Hlen]; [discriminate|].
  intros [= <-].
  destruct (timestamp_field frame Hlen) as (b0 & b1 & b2 & b3 & -> & ->).
  exists b0. split; [reflexivity|].
  pose proof (byte_val_bound b0). pose proof (byte_val_bound b1).
  pose proof (byte_val_bound b2). pose proof (byte_val_bound b3).
  unfold unpack_value, to_signed. cbn [calcsize].
  destruct o; cbn [unsigned rev app le_unsigned]; eval_pows.
  - destruct (_ <? _).
    + symmetry. apply Z.mod_unique
        with (byte_val b1 + 256 * (byte_val b2 + 256 * byte_val b3)); lia.
    + symmetry. apply Z.mod_unique
        with (byte_val b1 + 256 * (byte_val b2 + 256 * byte_val b3) - 16777216); lia.
  - repeat match goal with |- context [?a <? ?b] => destruct (Z.ltb_spec a b) end;
      try lia; symmetry.
    + apply Z.div_unique_pos
        with (byte_val b3 + 256 * (byte_val b2 + 256 * byte_val b1)); lia.
    + apply Z.div_unique_pos
        with (byte_val b3 + 256 * (byte_val b2 + 256 * byte_val b1)); lia.
Qed.

(** X5.  [get_timestamp_byte] is the first byte of the field
    [get_timestamp] decodes: on a little-endian host it is the low byte of
    the timestamp, on a big-endian host its signed high byte. *)
Theorem timestamp_byte_of_timestamp (o : byte_order) (frame : bytes) (ts : Z) :
  get_timestamp o frame = Ok ts ->
  exists b,
    get_timestamp_byte frame = [b]
    /\ match o with
       | LittleEndian => ts mod 256 = byte_val b
       | BigEndian => ts / 2 ^ 24 = to_signed 1 (byte_val b)
       end.
Proof. apply timestamp_first_byte. Qed.

Lemma timestamp_byte_of_timestamp_witness :
  exists b,
    get_timestamp_byte (scenario_frame LittleEndian) = [b]
    /\ 1234 mod 256 = byte_val b.
Proof.
  apply (timestamp_byte_of_timestamp LittleEndian (scenario_frame LittleEndian) 1234).
  reflexivity.
Defined.

Lemma lookup_framed (pre body trail : bytes) (i : nat) :
  (length pre <= i < length pre + length body)%nat ->
  (pre ++ body ++ trail) !! i = body !! (i - length pre)%nat.
Proof.
  intros Hi. rewrite lookup_app_r by lia. now rewrite lookup_app_l by lia.
Qed.

(** X6.  A full-size frame decodes by its bytes 6 to 23 alone: the six
    bytes before the timestamp and everything from offset 24 on may be
    replaced, by content of any length after offset 24, without changing
    the timestamp or the decoded frame. *)
Theorem decode_header_trailer (o : byte_order)
    (pre pre' body trail trail' : bytes) :
  length pre = 6%nat -> length pre' = 6%nat -> length body = 18%nat ->
  get_timestamp o (pre ++ body ++ trail) = get_timestamp o (pre' ++ body ++ trail')
  /\ decode o (pre ++ body ++ trail) = decode o (pre' ++ body ++ trail')
  /\ is_ok (decode o (pre ++ body ++ trail)) = true.
Proof.
  intros Hpre Hpre' Hbody.
  assert (Hagree : forall i, (6 <= i < 24)%nat ->
            (pre ++ body ++ trail) !! i = (pre' ++ body ++ trail') !! i).
  { intros i Hi. rewrite !lookup_framed by lia. now rewrite Hpre, Hpre'. }
  assert (Hfield : slice 6 10 (pre ++ body ++ trail)
                   = slice 6 10 (pre' ++ body ++ trail'))
    by (apply slice_ext; intros i Hi; apply Hagree; lia).
  assert (Hwindow : get_data_array (pre ++ body ++ trail)
                    = get_data_array (pre' ++ body ++ trail'))
    by (apply slice_ext; intros i Hi; apply Hagree; lia).
  assert (Hlen : forall p t, length p = 6%nat ->
            (length (p ++ body ++ t) <? 10)%nat = false
            /\ length (get_data_array (p ++ body ++ t)) = 14%nat).
  { intros p t Hp. rewrite length_get_data_array, !length_app, Hp, Hbody.
    split; [apply Nat.ltb_ge|]; lia. }
  destruct (Hlen pre trail Hpre) as [H1 H1'].
  destruct (Hlen pre' trail' Hpre') as [H2 H2'].
  rewrite !decode_spec, !get_timestamp_spec, H1, H2, H1', H2', Hfield, Hwindow.
  auto.
Qed.

Lemma decode_header_trailer_witness :
  decode LittleEndian (replicate 6 Byte.x00 ++ replicate 18 Byte.x01 ++ [])
  = decode LittleEndian (replicate 6 Byte.xff ++ replicate 18 Byte.x01 ++ [Byte.x3a; Byte.x02]).
Proof.
  apply (decode_header_trailer LittleEndian
           (replicate 6 Byte.x00) (replicate 6 Byte.xff) (replicate 18 Byte.x01)
           [] [Byte.x3a; Byte.x02]); reflexivity.
Defined.

(** X7.  The sample window is a contiguous part of the frame: the frame is
    its first 10 bytes, then the window, then what follows offset 24.  The
    window has 14 bytes when the frame has at least 24, and is empty
    exactly when the frame has at most 10. *)
Theorem get_data_array_part (frame : bytes) :
  frame = take 10 frame ++ get_data_array frame ++ drop 24 frame
  /\ (length (get_data_array frame) <= 14)%nat
  /\ (length (get_data_array frame) = 14%nat <-> (24 <= length frame)%nat)
  /\ (get_data_array frame = [] <-> (length frame <= 10)%nat).
Proof.
  split; [|split; [|split]].
  - unfold get_data_array, slice. change (24 - 10)%nat with 14%nat.
    replace (drop 24 frame) with (drop 14 (drop 10 frame))
      by (rewrite drop_drop; reflexivity).
    now rewrite take_drop, take_drop.
  - rewrite length_get_data_array. lia.
  - rewrite length_get_data_array. lia.
  - rewrite <- length_zero_iff_nil, length_get_data_array. lia.
Qed.

(** ** More on splitting *)

Lemma split_scan_acc (d : byte) (cur b : bytes) :
  split_scan d cur b
  = match split_scan d [] b with
    | [] => [cur]
    | c :: cs => (cur ++ c) :: cs
    end.
Proof.
  revert cur. induction b as [|x b IH]; intros cur; cbn [split_scan].
  - now rewrite app_nil_r.
  - destruct (decide (x = d)); [now rewrite app_nil_r|].
    rewrite (IH (cur ++ [x])), (IH ([] ++ [x])).
    destruct (split_scan d [] b); [reflexivity|].
    now rewrite <- app_assoc.
Qed.

Lemma split_cons (d x : byte) (b : bytes) :
  split d (x :: b)
  = if decide (x = d) then [] :: split d b
    else match split d b with
         | [] => [[x]]
         | c :: cs => (x :: c) :: cs
         end.
Proof.
  unfold split. cbn [split_scan]. destruct (decide (x = d)); [reflexivity|].
  now rewrite split_scan_acc.
Qed.

Lemma split_middle (d : byte) (a b : bytes) :
  split d (a ++ d :: b) = split d a ++ split d b.
Proof.
  induction a as [|x a IH].
  - cbn [app]. rewrite split_cons. now destruct (decide (d = d)).
  - cbn [app]. rewrite !split_cons, IH.
    destruct (decide (x = d)); [reflexivity|].
    pose proof (split_scan_nonempty d [] a) as Hne. fold (split d a) in Hne.
    destruct (split d a); [congruence|reflexivity].
Qed.

(** X8.  A delimiter between two buffers separates their candidates: the
    candidates of [a + b":" + b] are those of [a] followed by those of
    [b], so the last candidate of [a] and the first of [b] stay apart and
    the counts add up. *)
Theorem split_app_delimiter (d : byte) (a b : bytes) :
  split d (a ++ d :: b) = split d a ++ split d b
  /\ length (split d (a ++ d :: b)) = (length (split d a) + length (split d b))%nat.
Proof.
  rewrite split_middle. split; [reflexivity|apply length_app].
Qed.

(** X9.  Splitting undoes joining: for a non-empty list of parts, none of
    which contains the delimiter, [split(join(parts))] is [parts]. *)
Theorem split_join (d : byte) (parts : list bytes) :
  parts <> [] -> Forall (fun c => d ∉ c) parts ->
  split d (join d parts) = parts.
Proof.
  intros Hne Hfree. induction Hfree as [|p ps Hp Hps IH]; [congruence|].
  destruct ps as [|q ps].
  - cbn [join]. unfold split. now rewrite split_scan_no_delimiter.
  - rewrite join_cons by discriminate.
    rewrite split_middle, IH by discriminate.
    unfold split. now rewrite split_scan_no_delimiter.
Qed.

Lemma split_join_witness :
  split DELIMITER (join DELIMITER [[]; [Byte.x61]; []]) = [[]; [Byte.x61]; []].
Proof.
  apply (split_join DELIMITER [[]; [Byte.x61]; []]).
  - discriminate.
  - repeat constructor; compute_done.
Defined.

Lemma byte_val_delimiter (x : byte) : byte_val x = 58 <-> x = DELIMITER.
Proof.
  split; [|now intros ->].
  intros Hx. rewrite <- (byte_of_Z_val x), Hx. reflexivity.
Qed.

Lemma length_delimiter_bytes (b : bytes) :
  length (delimiter_bytes b) = length (filter (fun x => x = DELIMITER) b).
Proof.
  unfold delimiter_bytes. induction b as [|x b IH]; [reflexivity|].
  cbn [fmap list_fmap]. destruct (decide (x = DELIMITER)) as [->|Hne].
  - rewrite !filter_cons_True by reflexivity. cbn. now rewrite <- IH.
  - rewrite filter_cons_False by (now rewrite byte_val_delimiter).
    rewrite filter_cons_False by assumption. exact IH.
Qed.

(** X10.  The entry point's two views of a capture agree: there is one
    candidate more than there are bytes equal to 58.  So the first
    candidate always exists, and [split(b'\x3a')[1]] is out of range
    exactly when the capture holds no byte equal to 58. *)
Theorem split_delimiter_count (b : bytes) :
  length (split DELIMITER b) = S (length (delimiter_bytes b))
  /\ is_Some (split DELIMITER b !! 0%nat)
  /\ (split DELIMITER b !! 1%nat = None <-> delimiter_bytes b = []).
Proof.
  assert (Hlen : length (split DELIMITER b) = S (length (delimiter_bytes b))).
  { rewrite length_delimiter_bytes. apply length_split_scan. }
  split; [exact Hlen|split].
  - apply lookup_lt_is_Some. lia.
  - rewrite lookup_ge_None, <- length_zero_iff_nil. lia.
Qed.

(** ** The file source *)

Example get_bytes_from_file_readable :
  @get_bytes_from_file _ _ readable_file "imu_bytes.txt" [Byte.x3a; Byte.x01]
  = (Ok [Byte.x3a; Byte.x01], [Byte.x3a; Byte.x01]).
Proof. reflexivity. Qed.

Section FileSourceProperties.
Context {fs handle : Type} `{!FileReadOps fs handle}.

(** X11.  [get_bytes_from_file] suppresses nothing.  An exception of
    [open] (a missing file, a refused permission) reaches the caller
    unchanged, with nothing read.  Once the file is open it is read once
    and closed on every path: an exception of [read] reaches the caller
    unchanged once the file is closed, an exception of [close] reaches
    the caller, also in place of one of [read], and when all three
    succeed the call returns exactly the bytes [read] returned. *)
Theorem get_bytes_from_file_errors (path : string) (s : fs) :
  (forall e s1,
     open_rb path s = (Raise e, s1) ->
     get_bytes_from_file path s = (Raise e, s1))
  /\ (forall source s1 e s2 s3,
        open_rb path s = (Ok source, s1) ->
        source_read source s1 = (Raise e, s2) ->
        source_close source s2 = (Ok (), s3) ->
        get_bytes_from_file path s = (Raise e, s3))
  /\ (forall source s1 r s2 e s3,
        open_rb path s = (Ok source, s1) ->
        source_read source s1 = (r, s2) ->
        source_close source s2 = (Raise e, s3) ->
        get_bytes_from_file path s = (Raise e, s3))
  /\ (forall source s1 data s2 s3,
        open_rb path s = (Ok source, s1) ->
        source_read source s1 = (Ok data, s2) ->
        source_close source s2 = (Ok (), s3) ->
        get_bytes_from_file path s = (Ok data, s3)).
Proof.
  unfold get_bytes_from_file. split; [|split; [|split]].
  - intros e s1 Hopen. now rewrite Hopen.
  - intros source s1 e s2 s3 Hopen Hread Hclose.
    now rewrite Hopen, Hread, Hclose.
  - intros source s1 r s2 e s3 Hopen Hread Hclose.
    rewrite Hopen, Hread. destruct r; now rewrite Hclose.
  - intros source s1 data s2 s3 Hopen Hread Hclose.
    now rewrite Hopen, Hread, Hclose.
Qed.

End FileSourceProperties.

(** ** The serial transport *)

(** On the buffered port [get_bytes] returns everything that was
    waiting, in five calls. *)
Example get_bytes_buffered :
  @get_bytes _ _ _ buffered_port 1 FAST [Byte.x3a; Byte.x01]
  = (inr [Byte.x3a; Byte.x01], [])
  /\ @get_bytes_calls _ _ _ buffered_port 1 FAST [Byte.x3a; Byte.x01]
     = [CallSerial (Str "/dev/ttyUSB1") (Int 115200) (Int 1); CallSleep 1;
        CallInWaiting (); CallRead () 2; CallClose ()].
Proof. split; vm_compute; reflexivity. Qed.

Section TransportProperties.
Context {dev port E : Type} `{!SerialOps dev port E}.

(** Writing the log changes neither the outcome nor the device. *)
Lemma get_bytes_logged (n : Z) (config : gmap string config_value) (s : dev)
    (log : list (call port)) :
  (@get_bytes _ _ _ logged_ops n config (s, log)).1 = (get_bytes n config s).1
  /\ (@get_bytes _ _ _ logged_ops n config (s, log)).2.1 = (get_bytes n config s).2.
Proof.
  unfold get_bytes, get_bytes_body.
  cbn [Serial sleep in_waiting serial_read serial_close logged_ops].
  unfold logged.
  destruct (getitem config "path"); [auto|].
  destruct (getitem config "baud"); [auto|].
  destruct (getitem config "timeout"); [auto|].
  destruct (Serial _ _ _ s) as [[e|sensor] s0]; [auto|].
  destruct (sleep n s0) as [[e|[]] s1].
  { destruct (serial_close sensor s1) as [[e'|[]] s4]; auto. }
  destruct (in_waiting sensor s1) as [[e|size] s2].
  { destruct (serial_close sensor s2) as [[e'|[]] s4]; auto. }
  destruct (serial_read sensor size s2) as [[e|data] s3];
    destruct (serial_close sensor s3) as [[e'|[]] s4]; auto.
Qed.

Lemma getitem_inl (config : gmap string config_value) (key : string)
    (e : transport_error E) :
  getitem config key = inl e -> e = KeyError key /\ config !! key = None.
Proof.
  unfold getitem. destruct (config !! key); [discriminate|].
  now intros [= <-].
Qed.

Lemma getitem_Some (config : gmap string config_value) (key : string)
    (v : config_value) :
  config !! key = Some v -> @getitem E config key = inr v.
Proof. unfold getitem. now intros ->. Qed.

(** With the three keys present: the outcome, in terms of the device's
    own answers. *)
Lemma get_bytes_opened (n : Z) (config : gmap string config_value) (s : dev)
    (path baud timeout : config_value) :
  config !! "path"%string = Some path ->
  config !! "baud"%string = Some baud ->
  config !! "timeout"%string = Some timeout ->
  get_bytes n config s
  = match Serial path baud timeout s with
    | (inl e, s0) => (inl (DeviceError e), s0)
    | (inr sensor, s0) =>
        leave_with sensor (get_bytes_body n sensor s0).1
                          (get_bytes_body n sensor s0).2
    end.
Proof.
  intros Hp Hb Ht. unfold get_bytes, leave_with.
  rewrite (getitem_Some _ _ _ Hp), (getitem_Some _ _ _ Hb), (getitem_Some _ _ _ Ht).
  destruct (Serial path baud timeout s) as [[e|sensor] s0]; [reflexivity|].
  destruct (get_bytes_body n sensor s0) as [[e|data] s3]; cbn [fst snd];
    destruct (serial_close sensor s3) as [[e'|[]] s4]; reflexivity.
Qed.

(** With the three keys present: the calls made. *)
Lemma get_bytes_calls_opened (n : Z) (config : gmap string config_value) (s : dev)
    (path baud timeout : config_value) :
  config !! "path"%string = Some path ->
  config !! "baud"%string = Some baud ->
  config !! "timeout"%string = Some timeout ->
  get_bytes_calls n config s
  = match Serial path baud timeout s with
    | (inl _, _) => [CallSerial path baud timeout]
    | (inr sensor, s0) =>
        CallSerial path baud timeout :: CallSleep n
          :: match sleep n s0 with
             | (inl _, _) => []
             | (inr _, s1) =>
                 match in_waiting sensor s1 with
                 | (inl _, _) => [CallInWaiting sensor]
                 | (inr size, _) => [CallInWaiting sensor; CallRead sensor size]
                 end
             end
          ++ [CallClose sensor]
    end.
Proof.
  intros Hp Hb Ht. unfold get_bytes_calls, get_bytes, get_bytes_body.
  rewrite (getitem_Some _ _ _ Hp), (getitem_Some _ _ _ Hb), (getitem_Some _ _ _ Ht).
  cbn [Serial sleep in_waiting serial_read serial_close logged_ops].
  unfold logged.
  destruct (Serial path baud timeout s) as [[e|sensor] s0]; [reflexivity|].
  destruct (sleep n s0) as [[e|[]] s1].
  { destruct (serial_close sensor s1) as [[e'|[]] s4]; reflexivity. }
  destruct (in_waiting sensor s1) as [[e|size] s2].
  { destruct (serial_close sensor s2) as [[e'|[]] s4]; reflexivity. }
  destruct (serial_read sensor size s2) as [[e|data] s3];
    destruct (serial_close sensor s3) as [[e'|[]] s4]; reflexivity.
Qed.

Lemma get_bytes_calls_key_error (n : Z) (config : gmap string config_value)
    (s : dev) (key : string) :
  (get_bytes n config s).1 = inl (KeyError key) -> get_bytes_calls n config s = [].
Proof.
  unfold get_bytes_calls.
  destruct (config !! "path"%string) as [path|] eqn:Hp;
    [|unfold get_bytes, getitem; now rewrite Hp].
  destruct (config !! "baud"%string) as [baud|] eqn:Hb;
    [|unfold get_bytes, getitem; now rewrite Hp, Hb].
  destruct (config !! "timeout"%string) as [timeout|] eqn:Ht;
    [|unfold get_bytes, getitem; now rewrite Hp, Hb, Ht].
  rewrite (get_bytes_opened n config s path baud timeout Hp Hb Ht).
  unfold leave_with.
  destruct (Serial path baud timeout s) as [[e|sensor] s0]; [discriminate|].
  destruct (get_bytes_body n sensor s0) as [[e|data] s3]; cbn [fst snd];
    destruct (serial_close sensor s3) as [[e'|[]] s4]; discriminate.
Qed.

(** X14.  [get_bytes] releases the port on every path.  A KeyError is
    raised before any call.  With the three keys present, the constructor
    is called first, with [config['path']], [config['baud']] and
    [config['timeout']].  When it raises, that exception reaches the
    caller and nothing else is called.  When it returns a port, the calls
    that follow are [sleep(n)], then [in_waiting] on the port, then one
    [read] on the port of exactly the size [in_waiting] gave, stopping at
    the first that raises; the last call is [close] on that same port,
    whatever happened before; and the outcome is what the body ended in
    (the bytes [read] returned, or the first exception), unless [close]
    raises, whose exception then takes over. *)
Theorem get_bytes_protocol (n : Z) (config : gmap string config_value) (s : dev) :
  (forall key, (get_bytes n config s).1 = inl (KeyError key) ->
     get_bytes_calls n config s = [])
  /\ (forall path baud timeout,
        config !! "path"%string = Some path ->
        config !! "baud"%string = Some baud ->
        config !! "timeout"%string = Some timeout ->
        (forall e s0,
           Serial path baud timeout s = (inl e, s0) ->
           get_bytes n config s = (inl (DeviceError e), s0)
           /\ get_bytes_calls n config s = [CallSerial path baud timeout])
        /\ (forall sensor s0,
              Serial path baud timeout s = (inr sensor, s0) ->
              exists middle,
                get_bytes_calls n config s
                = CallSerial path baud timeout :: CallSleep n :: middle
                    ++ [CallClose sensor]
                /\ last (get_bytes_calls n config s) = Some (CallClose sensor)
                /\ (forall e s1,
                      sleep n s0 = (inl e, s1) ->
                      middle = []
                      /\ get_bytes n config s = leave_with sensor (inl e) s1)
                /\ (forall u s1 e s2,
                      sleep n s0 = (inr u, s1) ->
                      in_waiting sensor s1 = (inl e, s2) ->
                      middle = [CallInWaiting sensor]
                      /\ get_bytes n config s = leave_with sensor (inl e) s2)
                /\ (forall u s1 size s2 r s3,
                      sleep n s0 = (inr u, s1) ->
                      in_waiting sensor s1 = (inr size, s2) ->
                      serial_read sensor size s2 = (r, s3) ->
                      middle = [CallInWaiting sensor; CallRead sensor size]
                      /\ get_bytes n config s = leave_with sensor r s3))).
Proof.
  split; [intros key; apply get_bytes_calls_key_error|].
  intros path baud timeout Hp Hb Ht.
  rewrite (get_bytes_opened n config s path baud timeout Hp Hb Ht).
  rewrite (get_bytes_calls_opened n config s path baud timeout Hp Hb Ht).
  split.
  - intros e s0 Hopen. now rewrite Hopen.
  - intros sensor s0 Hopen. rewrite Hopen.
    eexists. split; [reflexivity|]. split.
    { rewrite !app_comm_cons. apply last_snoc. }
    unfold get_bytes_body. split; [|split].
    + intros e s1 Hsleep. now rewrite Hsleep.
    + intros u s1 e s2 Hsleep Hwaiting. now rewrite Hsleep, Hwaiting.
    + intros u s1 size s2 r s3 Hsleep Hwaiting Hread.
      now rewrite Hsleep, Hwaiting, Hread.
Qed.

(** X15.  A configuration lacking a key: [get_bytes] raises KeyError for
    the first of 'path', 'baud', 'timeout' that is missing, and the device
    is left untouched; KeyError is raised in no other case, so never with
    [DEFAULT] or [FAST]. *)
Theorem get_bytes_missing_key (n : Z) (config : gmap string config_value) (s : dev) :
  (forall key,
     (get_bytes n config s).1 = inl (KeyError key) <->
     config !! key = None
     /\ (key = "path"%string
         \/ (key = "baud"%string /\ is_Some (config !! "path"%string))
         \/ (key = "timeout"%string /\ is_Some (config !! "path"%string)
             /\ is_Some (config !! "baud"%string))))
  /\ (forall key, (get_bytes n config s).1 = inl (KeyError key) ->
        (get_bytes n config s).2 = s)
  /\ (forall key, (get_bytes n DEFAULT s).1 <> inl (KeyError key))
  /\ (forall key, (get_bytes n FAST s).1 <> inl (KeyError key)).
Proof.
  assert (Hfull : forall c,
            is_Some (c !! "path"%string) -> is_Some (c !! "baud"%string) ->
            is_Some (c !! "timeout"%string) ->
            forall key, (get_bytes n c s).1 <> inl (KeyError key)).
  { intros c [path Hp] [baud Hb] [timeout Ht] key.
    unfold get_bytes, get_bytes_body, getitem. rewrite Hp, Hb, Ht.
    destruct (Serial path baud timeout s) as [[e|sensor] s0]; [discriminate|].
    destruct (sleep n s0) as [[e|[]] s1].
    { destruct (serial_close sensor s1) as [[e'|[]] s4]; discriminate. }
    destruct (in_waiting sensor s1) as [[e|size] s2].
    { destruct (serial_close sensor s2) as [[e'|[]] s4]; discriminate. }
    destruct (serial_read sensor size s2) as [[e|data] s3];
      destruct (serial_close sensor s3) as [[e'|[]] s4]; discriminate. }
  split; [|split; [|split]].
  - intros key.
    destruct (config !! "path"%string) as [path|] eqn:Hp.
    2:{ unfold get_bytes, getitem. rewrite Hp. cbn. split.
        - intros [= <-]. auto.
        - intros [Hkey [->|[[-> [? ?]]|[-> [[? ?] _]]]]]; congruence. }
    destruct (config !! "baud"%string) as [baud|] eqn:Hb.
    2:{ unfold get_bytes, getitem. rewrite Hp, Hb. cbn. split.
        - intros [= <-]. eauto 6.
        - intros [Hkey [->|[[-> _]|[-> [_ [? ?]]]]]]; congruence. }
    destruct (config !! "timeout"%string) as [timeout|] eqn:Ht.
    2:{ unfold get_bytes, getitem. rewrite Hp, Hb, Ht. cbn. split.
        - intros [= <-]. eauto 8.
        - intros [Hkey [->|[[-> _]|[-> _]]]]; congruence. }
    split.
    + intros Hkey. exfalso. revert Hkey. apply Hfull; rewrite ?Hp, ?Hb, ?Ht; eauto.
    + intros [Hkey [->|[[-> _]|[-> _]]]]; congruence.
  - intros key. unfold get_bytes, getitem.
    destruct (config !! "path"%string) as [path|]; [|reflexivity].
    destruct (config !! "baud"%string) as [baud|]; [|reflexivity].
    destruct (config !! "timeout"%string) as [timeout|]; [|reflexivity].
    intros Hkey. exfalso. revert Hkey. unfold get_bytes_body.
    destruct (Serial path baud timeout s) as [[e|sensor] s0]; [discriminate|].
    destruct (sleep n s0) as [[e|[]] s1].
    { destruct (serial_close sensor s1) as [[e'|[]] s4]; discriminate. }
    destruct (in_waiting sensor s1) as [[e|size] s2].
    { destruct (serial_close sensor s2) as [[e'|[]] s4]; discriminate. }
    destruct (serial_read sensor size s2) as [[e|data] s3];
      destruct (serial_close sensor s3) as [[e'|[]] s4]; discriminate.
  - apply Hfull; eexists; reflexivity.
  - apply Hfull; eexists; reflexivity.
Qed.

End TransportProperties.

(** ** A packed frame *)

(** X16.  Decoding a frame built by packing: six bytes of header, a
    32-bit timestamp and 16-bit samples decode to that timestamp and to
    the samples, the first seven of them when more were packed. *)
Theorem decode_packed (o : byte_order) (pre : bytes) (ts : Z) (vs : list Z) :
  length pre = 6%nat -> in_range fmt_i ts -> Forall (in_range fmt_h) vs ->
  decode o (pre ++ pack o fmt_i ts ++ pack_all o fmt_h vs)
  = Ok {| timestamp := ts; samples := take 7 vs |}.
Proof.
  intros Hpre Hts Hvs. unfold decode, get_samples.
  rewrite get_timestamp_packed by assumption.
  assert (Hwindow : get_data_array (pre ++ pack o fmt_i ts ++ pack_all o fmt_h vs)
                    = pack_all o fmt_h (take 7 vs)).
  { unfold get_data_array, slice. rewrite app_assoc.
    rewrite drop_app_length' by (rewrite length_app, length_pack, Hpre; reflexivity).
    change (24 - 10)%nat with (2 * 7)%nat. apply take_pack_all. }
  rewrite Hwindow, get_data_packed by (now apply Forall_take). reflexivity.
Qed.

Lemma decode_packed_witness :
  decode BigEndian (replicate 6 Byte.x00 ++ pack BigEndian fmt_i (-5)
                      ++ pack_all BigEndian fmt_h [1; -1; 7])
  = Ok {| timestamp := -5; samples := take 7 [1; -1; 7] |}.
Proof.
  apply (decode_packed BigEndian (replicate 6 Byte.x00) (-5) [1; -1; 7]).
  - reflexivity.
  - vm_compute. intuition discriminate.
  - repeat constructor; vm_compute; intuition discriminate.
Defined.

(** ** The entry point's timestamp *)

(** Line 88 fails exactly on a capture of fewer than 2 bytes. *)
Lemma unpack_head (o : byte_order) (capture : bytes) :
  unpack o fmt_h (slice 0 (0 + 2) capture)
  = if (length capture <? 2)%nat then inl (UnpackSize 2)
    else inr (unpack_value o fmt_h (slice 0 2 capture)).
Proof.
  unfold unpack. change (0 + 2)%nat with 2%nat. rewrite length_slice.
  cbn [calcsize].
  destruct (Nat.ltb_spec (length capture) 2);
    destruct (Nat.eqb_spec ((2 - 0) `min` (length capture - 0)) 2);
    try lia; reflexivity.
Qed.

(** X17.  Which bytes the entry point takes the timestamp from.  With a
    delimiter-free prefix, a delimiter and a delimiter-free candidate,
    followed by another delimiter and anything, lines 87 to 90 end as
    [get_timestamp] does on exactly that candidate.  Without the second
    delimiter the same holds, except for the capture that is the single
    delimiter byte, where line 88 raises struct.error first.  Without any
    delimiter the subscript of line 87 raises IndexError. *)
Theorem main_timestamp_candidate (o : byte_order) (a frame rest : bytes) :
  DELIMITER ∉ a -> DELIMITER ∉ frame ->
  main_timestamp o (a ++ DELIMITER :: frame ++ DELIMITER :: rest)
  = match get_timestamp o frame with
    | Ok ts => inr ts
    | Raise e => inl (TimestampError e)
    end
  /\ main_timestamp o (a ++ DELIMITER :: frame)
     = match a ++ frame with
       | [] => inl (UnpackSize 2)
       | _ :: _ =>
           match get_timestamp o frame with
           | Ok ts => inr ts
           | Raise e => inl (TimestampError e)
           end
       end
  /\ main_timestamp o a = inl IndexError.
Proof.
  intros Ha Hframe. unfold main_timestamp.
  assert (Hsa : split DELIMITER a = [a])
    by (unfold split; now rewrite split_scan_no_delimiter).
  assert (Hsf : split DELIMITER frame = [frame])
    by (unfold split; now rewrite split_scan_no_delimiter).
  rewrite !split_middle, Hsa, Hsf, !unpack_head. cbn [app lookup list_lookup].
  split; [|split].
  - destruct (Nat.ltb_spec
                (length (a ++ DELIMITER :: frame ++ DELIMITER :: rest)) 2) as [Hlt|_];
      [|reflexivity].
    rewrite length_app in Hlt. cbn [length] in Hlt.
    rewrite length_app in Hlt. cbn [length] in Hlt. lia.
  - destruct (Nat.ltb_spec (length (a ++ DELIMITER :: frame)) 2) as [Hlt|Hge];
      rewrite length_app in *; cbn [length] in *.
    + destruct a; [|cbn [length] in Hlt; lia].
      destruct frame; [reflexivity|cbn [length] in Hlt; lia].
    + destruct a; [|reflexivity].
      destruct frame; [cbn [length] in Hge; lia|reflexivity].
  - reflexivity.
Qed.

Lemma main_timestamp_candidate_witness :
  main_timestamp LittleEndian
    ([Byte.x01] ++ DELIMITER :: replicate 10 Byte.x02 ++ DELIMITER :: [Byte.x03])
  = match get_timestamp LittleEndian (replicate 10 Byte.x02) with
    | Ok ts => inr ts
    | Raise e => inl (TimestampError e)
    end.
Proof.
  apply (main_timestamp_candidate LittleEndian
           [Byte.x01] (replicate 10 Byte.x02) [Byte.x03]); compute_done.
Defined.

(** The capture that is one delimiter byte: line 87 finds a second
    candidate, and line 88 raises before [get_timestamp] is reached. *)
Example main_timestamp_single_delimiter :
  main_timestamp LittleEndian [DELIMITER] = inl (UnpackSize 2).
Proof. reflexivity. Qed.

(** X18.  Timestamps the entry point cannot see: the candidate it decodes
    holds no byte 58, so a timestamp it returns never has 58 as the first
    byte of its field: never as low byte on a little-endian host, never
    as high byte on a big-endian host. *)
Theorem main_timestamp_never_delimiter (o : byte_order) (capture : bytes) (ts : Z) :
  main_timestamp o capture = inr ts ->
  match o with
  | LittleEndian => ts mod 256 <> 58
  | BigEndian => ts / 2 ^ 24 <> 58
  end.
Proof.
  unfold main_timestamp.
  destruct (split DELIMITER capture !! 1%nat) as [frame|] eqn:Hframe; [|discriminate].
  destruct (unpack o fmt_h (slice 0 (0 + 2) capture)); [discriminate|].
  destruct (get_timestamp o frame) as [ts'|e] eqn:Hts; [|discriminate].
  intros [= ->].
  assert (Hfree : DELIMITER ∉ frame).
  { pose proof (split_scan_free DELIMITER [] capture (not_elem_of_nil _)) as Hall.
    rewrite Forall_forall in Hall. apply Hall.
    eapply list_elem_of_lookup_2. exact Hframe. }
  destruct (timestamp_first_byte o frame ts Hts) as (b & Hb & Hval).
  assert (Hne : byte_val b <> 58).
  { rewrite byte_val_delimiter. intros ->. apply Hfree.
    rewrite get_timestamp_byte_spec in Hb.
    destruct (frame !! 6%nat) as [x|] eqn:Hx; [|discriminate].
    injection Hb as ->. eapply list_elem_of_lookup_2. exact Hx. }
  destruct o; rewrite Hval; [exact Hne|].
  unfold to_signed. pose proof (byte_val_bound b).
  eval_pows. destruct (_ <? _); lia.
Qed.

Lemma main_timestamp_never_delimiter_witness :
  main_timestamp LittleEndian (DELIMITER :: scenario_frame LittleEndian)
  = inr 1234
  /\ 1234 mod 256 <> 58.
Proof.
  split; [reflexivity|].
  apply (main_timestamp_never_delimiter LittleEndian
           (DELIMITER :: scenario_frame LittleEndian) 1234).
  reflexivity.
Defined.
